(** * Party-Playlister: the OAuth token lifecycle and the playlist pipeline

    A shallow embedding of the session-based server (the variant with the
    lenient state check in [/callback]): [getAccessToken], and the handlers of
    [/callback], [/api/search-artists] and [/api/generate].

    The server is a sequence of awaited upstream exchanges around a mutable
    session object.  It is modelled as a state-and-exception monad over

    - the session object of the request ([req.session]),
    - the log of upstream calls issued so far, in order,
    - the wall clock read by [Date.now()],

    against a [World] that fixes the process configuration, the upstream's
    answer to each call and the outcome of the randomised sort. *)

From Stdlib Require Import ZArith NArith List String Ascii Bool Lia Permutation.
From Stdlib Require Import DecimalString.
Import ListNotations.

Local Open Scope string_scope.
Local Open Scope Z_scope.

(** ** JavaScript values and truthiness *)

(** The values a JSON request body can carry in a field.  Array elements are
    strings (the artists of a generation request). *)
Inductive jsval : Type :=
| JUndefined
| JNull
| JBool (b : bool)
| JNum (n : Z)
| JStr (s : string)
| JArr (items : list string)
| JObj.

Definition nonempty (s : string) : bool :=
  match s with EmptyString => false | String _ _ => true end.

(** [ToBoolean]: what [if (v)], [!v], [v && _] and [v || _] test. *)
Definition truthy (v : jsval) : bool :=
  match v with
  | JUndefined | JNull => false
  | JBool b => b
  | JNum n => negb (n =? 0)
  | JStr s => nonempty s
  | JArr _ | JObj => true
  end.

(** A string-valued property that may be undefined. *)
Definition truthy_str (o : option string) : bool :=
  match o with Some s => nonempty s | None => false end.

(** A number-valued property that may be undefined. *)
Definition truthy_num (o : option Z) : bool :=
  match o with Some n => negb (n =? 0) | None => false end.

(** [x || null] on an optional string: falsy values collapse to null. *)
Definition or_null (o : option string) : option string :=
  if truthy_str o then o else None.

(** [`${n}`] for an integer. *)
Definition num_to_string (n : Z) : string :=
  NilZero.string_of_int (Z.to_int n).

(** The double quote character, for template literals that contain one. *)
Definition dq : string := String (ascii_of_nat 34) EmptyString.

(** [arr.slice(0, n)]: a negative end counts from the end of the array. *)
Definition slice0 {A : Type} (n : Z) (l : list A) : list A :=
  if 0 <=? n then firstn (Z.to_nat n) l
  else firstn (List.length l - Z.to_nat (- n))%nat l.

(** ** Errors *)

Inductive js_error : Type :=
| FetchError (msg : string)   (* [await fetch(..)] or [await response.json()] rejected *)
| TypeError (msg : string)    (* property read on undefined *)
| Error (msg : string).       (* [throw new Error(msg)] *)

Definition message (e : js_error) : string :=
  match e with FetchError m | TypeError m | Error m => m end.

(** ** The upstream API *)

Record Track : Type := { uri : string; track_name : string }.
Record Artist : Type := { artist_id : string; artist_name : string }.

(** The fields of an upstream JSON body that the server reads. *)
Record Json : Type := {
  access_token : string;
  refresh_token : option string;
  expires_in : Z;                       (* seconds *)
  error_description : option string;
  error : option string;                (* token endpoint: [data.error] *)
  error_message : option string;        (* web API: [data.error?.message] *)
  artists_items : option (list Artist); (* [data.artists], then [.items] *)
  tracks_items : option (list Track);   (* [data.tracks], then [.items] *)
  data_id : string;                     (* [meData.id], [playlistData.id] *)
  external_urls : option string;        (* [external_urls], then [.spotify] *)
  playlist_name : option string
}.

Inductive grant : Type :=
| RefreshGrant (token : string)               (* grant_type=refresh_token *)
| CodeGrant (code redirect_uri : string).     (* grant_type=authorization_code *)

Inductive search_type : Type := SearchArtists | SearchTracks.

(** One upstream request.  A search carries the query before URL encoding. *)
Inductive call : Type :=
| TokenCall (client_id client_secret : string) (g : grant)
| SearchCall (q : string) (type : search_type) (limit : N) (bearer : string)
| MeCall (bearer : string)
| CreatePlaylistCall (user_id : string) (name : jsval) (public : bool)
                     (bearer : string)
| AddTracksCall (playlist_id : string) (uris : list string) (bearer : string).

(** What an awaited exchange gives back: a response, whose [ok] flag and
    parsed body the code inspects, or an exception (the fetch was rejected, or
    the body was not JSON where the code parses it). *)
Inductive outcome : Type :=
| Threw (e : js_error)
| Resp (ok : bool) (data : Json).

Record World : Type := {
  CLIENT_ID : string;
  CLIENT_SECRET : string;
  REDIRECT_URI : string;
  SERVICE_REFRESH_TOKEN : option string;
  (** the upstream's answer to the n-th call of the run *)
  respond : nat -> call -> outcome;
  (** milliseconds that pass while the n-th call is awaited *)
  elapsed : nat -> call -> N;
  (** [allTracks.sort(() => 0.5 - Math.random())] *)
  random_sort : list Track -> list Track
}.

(** Sorting with an inconsistent comparator leaves the order to the engine,
    but the array still holds the same elements. *)
Definition sort_permutes (W : World) : Prop :=
  forall l, Permutation (random_sort W l) l.

(** ** Sessions and machine state *)

Record Session : Type := {
  accessToken : option string;
  refreshToken : option string;
  expiresAt : option Z;       (* milliseconds since the epoch *)
  state : option string
}.

Definition empty_session : Session :=
  {| accessToken := None; refreshToken := None; expiresAt := None;
     state := None |}.

Record St : Type := {
  session : option Session;   (* [req.session]; [None] when undefined *)
  calls : list call;          (* upstream calls so far, oldest first *)
  clock : N                   (* milliseconds since the epoch *)
}.

Inductive mode : Type := User | Demo.

Record TokenResult : Type := { token : string; token_mode : mode }.

(** ** The monad: state, and exceptions that keep the state *)

Inductive result (A : Type) : Type :=
| Ok (a : A)
| Throw (e : js_error).

Arguments Ok {A} a.
Arguments Throw {A} e.

Definition M (A : Type) : Type := St -> result A * St.

Definition ret {A : Type} (a : A) : M A := fun st => (Ok a, st).

Definition throw {A : Type} (e : js_error) : M A := fun st => (Throw e, st).

Definition bind {A B : Type} (m : M A) (k : A -> M B) : M B :=
  fun st =>
    match m st with
    | (Ok a, st') => k a st'
    | (Throw e, st') => (Throw e, st')
    end.

(** [try { m } catch (e) { h e }] *)
Definition try_catch {A : Type} (m : M A) (h : js_error -> M A) : M A :=
  fun st =>
    match m st with
    | (Ok a, st') => (Ok a, st')
    | (Throw e, st') => h e st'
    end.

Declare Scope js_scope.
Delimit Scope js_scope with js.
Notation "x <- m ;; k" := (bind m (fun x => k))
  (at level 61, m at next level, right associativity) : js_scope.
Notation "' p <- m ;; k" := (bind m (fun x => let p := x in k))
  (at level 61, p pattern, m at next level, right associativity) : js_scope.
Notation "m ;;; k" := (bind m (fun _ => k))
  (at level 61, right associativity) : js_scope.
Local Open Scope js_scope.

Definition get_session : M (option Session) := fun st => (Ok (session st), st).

(** [Date.now()] *)
Definition date_now : M Z := fun st => (Ok (Z.of_N (clock st)), st).

(** [obj.field = ..] on the session object, when there is one. *)
Definition update_session (f : Session -> Session) : M unit :=
  fun st =>
    (Ok tt, {| session := option_map f (session st); calls := calls st;
               clock := clock st |}).

(** [a || b] on optional strings, and [`${x}`] of the outcome. *)
Definition or_str (a b : option string) : option string :=
  if truthy_str a then a else b.

Definition template (o : option string) : string :=
  match o with Some s => s | None => "undefined" end.

(** [a || 'literal'] *)
Definition or_default (a : option string) (d : string) : string :=
  match or_null a with Some s => s | None => d end.

(** [returned !== stored] is the negation of this: the returned state is a
    string or null, the stored one a string or undefined, and null is not
    strictly equal to undefined. *)
Definition strict_eq (returned stored : option string) : bool :=
  match returned, stored with
  | Some a, Some b => String.eqb a b
  | _, _ => false
  end.

(** ** HTTP requests and replies of the server itself *)

Record Query : Type := {
  query_code : option string;
  query_state : option string;
  query_error : option string;
  query_q : option string
}.

Record GenerateBody : Type := {
  name : jsval;
  artists : jsval;
  songCount : option Z;
  startYear : option Z;
  endYear : option Z
}.

Inductive body : Type :=
| Html (page : string)
| AuthSuccessPage                           (* the script that notifies the opener *)
| ErrorJson (err : string)                  (* [{ error }] *)
| ArtistsJson (found : list Artist) (m : mode)
| PlaylistJson (url : string) (playlist : option string) (m : mode).

Record Reply : Type := { status : nat; reply_body : body }.

Definition reply (code : nat) (b : body) : M Reply :=
  ret {| status := code; reply_body := b |}.

Definition is_array (v : jsval) : bool :=
  match v with JArr _ => true | _ => false end.

Definition array_items (v : jsval) : list string :=
  match v with JArr l => l | _ => [] end.

(** ** The server *)

Section Server.

Variable W : World.

(** The upstream's answer to [c] when it is the next call of the run. *)
Definition answer (st : St) (c : call) : outcome :=
  respond W (List.length (calls st)) c.

(** The state once [c] has been awaited: the call is logged and the clock
    has moved on, whatever the outcome. *)
Definition awaited (c : call) (st : St) : St :=
  {| session := session st;
     calls := calls st ++ [c];
     clock := (clock st + elapsed W (List.length (calls st)) c)%N |}.

(** [await fetch(..)], with [await response.json()] where the code has it. *)
Definition fetch (c : call) : M (bool * Json) :=
  fun st =>
    match answer st c with
    | Threw e => (Throw e, awaited c st)
    | Resp ok data => (Ok (ok, data), awaited c st)
    end.

(** POST to the token endpoint, Basic auth of CLIENT_ID:CLIENT_SECRET. *)
Definition token_call (g : grant) : call :=
  TokenCall (CLIENT_ID W) (CLIENT_SECRET W) g.

(** *** getAccessToken *)

(** [session && session.accessToken && session.expiresAt &&
     Date.now() < session.expiresAt], with the token it then returns. *)
Definition valid_access_token (s : option Session) (now : Z) : option string :=
  match s with
  | None => None
  | Some s =>
      match accessToken s, expiresAt s with
      | Some tok, Some exp =>
          if nonempty tok && negb (exp =? 0) && (now <? exp)
          then Some tok else None
      | _, _ => None
      end
  end.

(** [session && session.refreshToken], with the token it then sends. *)
Definition session_refresh_token (s : option Session) : option string :=
  match s with
  | None => None
  | Some s => or_null (refreshToken s)
  end.

(** The [try] block of the user refresh: [Some] is its early [return]. *)
Definition refresh_user_token (rt : string) : M (option TokenResult) :=
  try_catch
    ('(ok, data) <- fetch (token_call (RefreshGrant rt)) ;;
     if ok then
       now <- date_now ;;
       update_session (fun s =>
         {| accessToken := Some (access_token data);
            refreshToken := refreshToken s;
            expiresAt := Some (now + expires_in data * 1000);
            state := state s |}) ;;;
       ret (Some {| token := access_token data; token_mode := User |})
     else ret None)
    (fun _ => ret None).

(** The fall-back to the service token, and the final [throw]. *)
Definition service_token : M TokenResult :=
  match or_null (SERVICE_REFRESH_TOKEN W) with
  | Some srt =>
      '(ok, data) <- fetch (token_call (RefreshGrant srt)) ;;
      if negb ok then
        throw (Error ("Spotify API error: " ++
                      template (or_str (error_description data) (error data))))
      else ret {| token := access_token data; token_mode := Demo |}
  | None =>
      throw (Error "No authentication available. Please log in or configure SERVICE_REFRESH_TOKEN.")
  end.

Definition getAccessToken : M TokenResult :=
  s <- get_session ;;
  now <- date_now ;;
  match valid_access_token s now with
  | Some tok => ret {| token := tok; token_mode := User |}
  | None =>
      refreshed <- match session_refresh_token s with
                   | Some rt => refresh_user_token rt
                   | None => ret None
                   end ;;
      match refreshed with
      | Some r => ret r
      | None => service_token
      end
  end.

(** *** GET /callback *)

(** The [try] block of the handler: the authorization-code exchange. *)
Definition exchange_code (code : string) : M Reply :=
  try_catch
    ('(ok, data) <- fetch (token_call (CodeGrant code (REDIRECT_URI W))) ;;
     if negb ok then
       throw (Error (or_default (error_description data) "Failed to get tokens"))
     else
       now <- date_now ;;
       update_session (fun _ =>
         {| accessToken := Some (access_token data);
            refreshToken := refresh_token data;
            expiresAt := Some (now + expires_in data * 1000);
            state := None |}) ;;;
       reply 200 AuthSuccessPage)
    (fun e => reply 500 (Html ("<h1>Error: " ++ message e ++ "</h1>"))).

Definition callback (q : Query) : M Reply :=
  let code := or_null (query_code q) in
  let returned := or_null (query_state q) in
  let error := or_null (query_error q) in
  match error with
  | Some err =>
      reply 400 (Html ("<h1>Spotify Authorization Error</h1><p>" ++ err ++
                       "</p><p>User denied access or another error occurred.</p>"))
  | None =>
      match code with
      | None => reply 400 (Html "<h1>Error: No authorization code received</h1>")
      | Some code =>
          s <- get_session ;;
          match s with
          | None =>
              throw (TypeError "Cannot read properties of undefined (reading 'state')")
          | Some s =>
              if negb (truthy_str (state s)) then exchange_code code
              else if negb (strict_eq returned (state s)) then
                reply 400 (Html "<h1>Error: State mismatch</h1><p>Please try logging in again.</p>")
              else exchange_code code
          end
      end
  end.

(** *** GET /api/search-artists *)

Definition search_artists (q : Query) : M Reply :=
  try_catch
    (tr <- getAccessToken ;;
     match or_null (query_q q) with
     | None =>
         reply 400 (ErrorJson ("Query parameter " ++ dq ++ "q" ++ dq ++ " is required"))
     | Some qs =>
         '(ok, data) <- fetch (SearchCall qs SearchArtists 5 (token tr)) ;;
         if negb ok then
           throw (Error (or_default (error_message data) "Spotify API error"))
         else
           reply 200 (ArtistsJson
                        (match artists_items data with Some l => l | None => [] end)
                        (token_mode tr))
     end)
    (fun e => reply 500 (ErrorJson (message e))).

(** *** POST /api/generate *)

(** [!name || !artists || !Array.isArray(artists) || artists.length === 0] *)
Definition invalid_request (b : GenerateBody) : bool :=
  negb (truthy (name b)) || negb (truthy (artists b))
  || negb (is_array (artists b))
  || (List.length (array_items (artists b)) =? 0)%nat.

(** [songCount && (songCount < 1 || songCount > 100)] *)
Definition bad_song_count (b : GenerateBody) : bool :=
  match songCount b with
  | Some n => negb (n =? 0) && ((n <? 1) || (100 <? n))
  | None => false
  end.

(** [(startYear && endYear) ? ` year:${startYear}-${endYear}` : ""] *)
Definition yearFilter (b : GenerateBody) : string :=
  match startYear b, endYear b with
  | Some s, Some e =>
      if negb (s =? 0) && negb (e =? 0)
      then " year:" ++ num_to_string s ++ "-" ++ num_to_string e
      else EmptyString
  | _, _ => EmptyString
  end.

(** [`artist:"${artist}"${yearFilter}`] *)
Definition search_query (b : GenerateBody) (artist : string) : string :=
  "artist:" ++ dq ++ artist ++ dq ++ yearFilter b.

Definition track_search (b : GenerateBody) (tok artist : string) : call :=
  SearchCall (search_query b artist) SearchTracks 15 tok.

(** The [for (const artist of artists)] loop over [allTracks]. *)
Fixpoint collect_tracks (b : GenerateBody) (tok : string)
    (todo : list string) (allTracks : list Track) : M (list Track) :=
  match todo with
  | [] => ret allTracks
  | artist :: rest =>
      '(ok, searchData) <- fetch (track_search b tok artist) ;;
      if negb ok then collect_tracks b tok rest allTracks
      else
        match tracks_items searchData with
        | Some items => collect_tracks b tok rest (allTracks ++ items)
        | None => collect_tracks b tok rest allTracks
        end
  end.

(** [songCount || 20] *)
Definition take_count (b : GenerateBody) : Z :=
  match songCount b with
  | Some n => if negb (n =? 0) then n else 20
  | None => 20
  end.

(** [allTracks.sort(..).slice(0, songCount || 20).map(t => t.uri)] *)
Definition selectedUris (b : GenerateBody) (allTracks : list Track) : list string :=
  map uri (slice0 (take_count b) (random_sort W allTracks)).

(** [name || 'New Vibe Playlist'] *)
Definition playlist_title (b : GenerateBody) : jsval :=
  if truthy (name b) then name b else JStr "New Vibe Playlist".

(** Profile, playlist creation, track insertion and the reply. *)
Definition create_playlist (b : GenerateBody) (tr : TokenResult)
    (uris : list string) : M Reply :=
  '(meOk, meData) <- fetch (MeCall (token tr)) ;;
  if negb meOk then throw (Error "Failed to get user information")
  else
    '(createOk, playlistData) <-
       fetch (CreatePlaylistCall (data_id meData) (playlist_title b) true (token tr)) ;;
    if negb createOk then throw (Error "Failed to create playlist")
    else
      fetch (AddTracksCall (data_id playlistData) uris (token tr)) ;;;
      match external_urls playlistData with
      | None =>
          throw (TypeError "Cannot read properties of undefined (reading 'spotify')")
      | Some url =>
          reply 200 (PlaylistJson url (playlist_name playlistData) (token_mode tr))
      end.

(** The catch clause of the handler. *)
Definition generate_failed (e : js_error) : M Reply :=
  reply 500 (ErrorJson ("Failed to generate playlist: " ++ message e)).

Definition generate (b : GenerateBody) : M Reply :=
  if invalid_request b then
    reply 400 (ErrorJson "Invalid request: name and artists are required")
  else if bad_song_count b then
    reply 400 (ErrorJson "Song count must be between 1 and 100")
  else
    try_catch
      (tr <- getAccessToken ;;
       allTracks <- collect_tracks b (token tr) (array_items (artists b)) [] ;;
       let uris := selectedUris b allTracks in
       if (List.length uris =? 0)%nat then
         reply 404 (ErrorJson "No songs found for these artists/years.")
       else create_playlist b tr uris)
      generate_failed.

End Server.

(** ** Reading a run *)

(** A token refresh is usable when the session has a refresh token and the
    upstream accepts it. *)
Definition refresh_usable (W : World) (st : St) : bool :=
  match session_refresh_token (session st) with
  | Some rt =>
      match answer W st (token_call W (RefreshGrant rt)) with
      | Resp true _ => true
      | _ => false
      end
  | None => false
  end.

(** The state in which the fall-back starts: after the refresh attempt, when
    the session had a refresh token to try. *)
Definition after_refresh_attempt (W : World) (st : St) : St :=
  match session_refresh_token (session st) with
  | Some rt => awaited W (token_call W (RefreshGrant rt)) st
  | None => st
  end.

(** Every call that [m] adds to the log satisfies [P]. *)
Definition emits {A : Type} (P : call -> Prop) (m : M A) : Prop :=
  forall st, exists l, calls (snd (m st)) = (calls st ++ l)%list /\ Forall P l.

(** [m] leaves the session object alone. *)
Definition keeps_session {A : Type} (m : M A) : Prop :=
  forall st, session (snd (m st)) = session st.

(** The tracks the searches for [todo] contribute, in order, when the first
    of them is the n-th call of the run: the items of each successful answer
    that has a [tracks] field, nothing for the others. *)
Fixpoint gathered (W : World) (b : GenerateBody) (tok : string) (n : nat)
    (todo : list string) : list Track :=
  match todo with
  | [] => []
  | artist :: rest =>
      (match respond W n (track_search b tok artist) with
       | Resp true data =>
           match tracks_items data with Some items => items | None => [] end
       | _ => []
       end ++ gathered W b tok (S n) rest)%list
  end.

(** Every search for [todo] comes back with a response, successful or not. *)
Definition searches_respond (W : World) (b : GenerateBody) (tok : string)
    (n : nat) (todo : list string) : Prop :=
  forall i artist,
    nth_error todo i = Some artist ->
    exists ok data, respond W (n + i) (track_search b tok artist) = Resp ok data.


(** The calls of the last three steps of a generation. *)
Definition playlist_step (b : GenerateBody) (tok : string)
    (uris : list string) (c : call) : Prop :=
  c = MeCall tok \/
  (exists user, c = CreatePlaylistCall user (playlist_title b) true tok) \/
  (exists playlist, c = AddTracksCall playlist uris tok).

(** ** Sample worlds *)

Definition sample_tracks : list Track :=
  [ {| uri := "spotify:track:1"; track_name := "Bohemian Rhapsody" |};
    {| uri := "spotify:track:2"; track_name := "Under Pressure" |};
    {| uri := "spotify:track:3"; track_name := "Radio Ga Ga" |} ].

Definition sample_body : Json :=
  {| access_token := "fresh-token";
     refresh_token := Some "next-refresh";
     expires_in := 3600;
     error_description := Some "Invalid refresh token";
     error := Some "invalid_grant";
     error_message := None;
     artists_items := None;
     tracks_items := Some sample_tracks;
     data_id := "id-1";
     external_urls := Some "https://open.spotify.com/playlist/id-1";
     playlist_name := Some "Road Trip" |}.

(** A world whose upstream answers the n-th call with the n-th entry of a
    script, and with success once the script is over. *)
Definition scripted (srt : option string) (script : list outcome) : World :=
  {| CLIENT_ID := "client";
     CLIENT_SECRET := "secret";
     REDIRECT_URI := "http://127.0.0.1:5500/callback";
     SERVICE_REFRESH_TOKEN := srt;
     respond := fun n _ => nth n script (Resp true sample_body);
     elapsed := fun _ _ => 40%N;
     random_sort := @rev Track |}.

Definition session_with (tok rt : option string) (exp : option Z)
    (st : option string) : Session :=
  {| accessToken := tok; refreshToken := rt; expiresAt := exp; state := st |}.

Definition at_time (s : Session) (now : N) : St :=
  {| session := Some s; calls := []; clock := now |}.

Definition road_trip (count : option Z) : GenerateBody :=
  {| name := JStr "Road Trip";
     artists := JArr ["Queen"; "ABBA"];
     songCount := count;
     startYear := Some 1975;
     endYear := Some 1985 |}.

Definition no_query : Query :=
  {| query_code := None; query_state := None; query_error := None;
     query_q := None |}.

Definition callback_query (code st : string) : Query :=
  {| query_code := Some code; query_state := Some st; query_error := None;
     query_q := None |}.

(** Sample runs: a server with a service token and an upstream that accepts
    everything; one whose upstream refuses the sixth call; one without a
    service token. *)
Definition demo_world : World := scripted (Some "service-refresh") [].

Definition refusing_insertion : World :=
  scripted (Some "service-refresh")
    [ Resp true sample_body; Resp true sample_body; Resp true sample_body;
      Resp true sample_body; Resp true sample_body; Resp false sample_body ].

Definition no_demo_world : World := scripted None [].

Definition anonymous : St := at_time empty_session 1000.

(** A logged-in session whose access token ran out at 500 ms. *)
Definition stale : St :=
  at_time (session_with (Some "old-token") (Some "user-refresh") (Some 500) None)
          1000.

(** A logged-in session whose access token is good until 2000 ms. *)
Definition fresh : St :=
  at_time (session_with (Some "user-token") (Some "user-refresh") (Some 2000) None)
          1000.

(** A session that went through [/login] and waits for the callback. *)
Definition awaiting : St :=
  at_time (session_with None None None (Some "k3x9qz")) 1000.

(** An upstream that refuses the first call of the run. *)
Definition refusing_first : World :=
  scripted (Some "service-refresh") [ Resp false sample_body ].

Definition nameless : GenerateBody :=
  {| name := JStr EmptyString;
     artists := JArr ["Queen"];
     songCount := Some 5;
     startYear := None;
     endYear := None |}.

(** ** The remaining routes of the server *)

(** The redirect of [/login]: the parameters of the authorization URL. *)
Record AuthorizeRedirect : Type := {
  response_type : string;
  redirect_client_id : string;
  scope : string;
  redirect_target : string;
  redirect_state : string;
  show_dialog : bool
}.

(** The body of [/api/auth-status]; [None] is the mode ['none']. *)
Record AuthStatus : Type := {
  authenticated : bool;
  status_mode : option mode;
  status_expiresAt : option Z;
  demoAvailable : bool
}.

(** [s.substring(n)] *)
Definition substring_from (n : nat) (s : string) : string :=
  String.substring n (String.length s - n) s.

(** [req.session.destroy()]: the request has no session object afterwards. *)
Definition destroy_session : M unit :=
  fun st => (Ok tt, {| session := None; calls := calls st; clock := clock st |}).

Section Routes.

Variable W : World.

(** GET /login.  [rnd] is [Math.random().toString(36)]; the save callback only
    logs its error, so the redirect always goes out. *)
Definition login (rnd : string) : M AuthorizeRedirect :=
  let issued := substring_from 7 rnd in
  s <- get_session ;;
  match s with
  | None =>
      throw (TypeError "Cannot set properties of undefined (setting 'state')")
  | Some _ =>
      update_session (fun s =>
        {| accessToken := accessToken s;
           refreshToken := refreshToken s;
           expiresAt := expiresAt s;
           state := Some issued |}) ;;;
      ret {| response_type := "code";
             redirect_client_id := CLIENT_ID W;
             scope := "playlist-modify-public playlist-modify-private";
             redirect_target := REDIRECT_URI W;
             redirect_state := issued;
             show_dialog := true |}
  end.

(** GET /logout; the value is the [success] flag of the reply. *)
Definition logout : M bool :=
  s <- get_session ;;
  match s with
  | None =>
      throw (TypeError "Cannot read properties of undefined (reading 'destroy')")
  | Some _ => destroy_session ;;; ret true
  end.

(** GET /api/auth-status *)
Definition auth_status : M AuthStatus :=
  s <- get_session ;;
  now <- date_now ;;
  let hasUserAuth :=
    match s with
    | Some s =>
        truthy_str (accessToken s) && truthy_num (expiresAt s)
        && match expiresAt s with Some exp => now <? exp | None => false end
    | None => false
    end in
  let hasDemoMode := truthy_str (SERVICE_REFRESH_TOKEN W) in
  ret {| authenticated := hasUserAuth;
         status_mode :=
           if hasUserAuth then Some User
           else if hasDemoMode then Some Demo else None;
         status_expiresAt :=
           match s with Some s => expiresAt s | None => None end;
         demoAvailable := hasDemoMode |}.

End Routes.

(** ** The login-only server ([server.js]) *)

(** What a guarded route gives: the 401 of the guard,
    [{ error: 'Not authenticated', needsAuth: true }], or what the route
    itself gives. *)
Inductive guarded (A : Type) : Type :=
| NotAuthenticated
| Passed (a : A).

Arguments NotAuthenticated {A}.
Arguments Passed {A} a.

(** Replies of the login-only server: errors as [{ error }], the artists as
    a bare array. *)
Inductive plain_body : Type :=
| PlainError (err : string)
| PlainArtists (found : list Artist).

Record PlainReply : Type := { plain_status : nat; plain_reply_body : plain_body }.

Section LoginOnly.

Variable W : World.

(** [requireAuth] in front of the route [next]. *)
Definition requireAuth {A : Type} (next : M A) : M (guarded A) :=
  s <- get_session ;;
  match s with
  | None =>
      throw (TypeError "Cannot read properties of undefined (reading 'accessToken')")
  | Some s =>
      if negb (truthy_str (accessToken s)) then ret NotAuthenticated
      else a <- next ;; ret (Passed a)
  end.

Definition getValidAccessToken : M string :=
  s <- get_session ;;
  now <- date_now ;;
  match s with
  | None =>
      throw (TypeError "Cannot read properties of undefined (reading 'accessToken')")
  | Some s =>
      match valid_access_token (Some s) now with
      | Some tok => ret tok
      | None =>
          match or_null (refreshToken s) with
          | None => throw (Error "No refresh token available")
          | Some rt =>
              '(ok, data) <- fetch W (token_call W (RefreshGrant rt)) ;;
              if negb ok then
                throw (Error ("Spotify API error: " ++
                              template (or_str (error_description data)
                                               (error data))))
              else
                now <- date_now ;;
                update_session (fun s =>
                  {| accessToken := Some (access_token data);
                     refreshToken := refreshToken s;
                     expiresAt := Some (now + expires_in data * 1000);
                     state := state s |}) ;;;
                ret (access_token data)
          end
      end
  end.

Definition plain (code : nat) (b : plain_body) : M PlainReply :=
  ret {| plain_status := code; plain_reply_body := b |}.

(** The route behind the guard. *)
Definition search_artists_user (q : Query) : M PlainReply :=
  try_catch
    (tok <- getValidAccessToken ;;
     match or_null (query_q q) with
     | None =>
         plain 400 (PlainError ("Query parameter " ++ dq ++ "q" ++ dq ++ " is required"))
     | Some qs =>
         '(ok, data) <- fetch W (SearchCall qs SearchArtists 5 tok) ;;
         if negb ok then
           throw (Error (or_default (error_message data) "Spotify API error"))
         else
           plain 200 (PlainArtists
                        (match artists_items data with Some l => l | None => [] end))
     end)
    (fun e => plain 500 (PlainError (message e))).

(** [app.get('/api/search-artists', requireAuth, ..)] *)
Definition search_artists_guarded (q : Query) : M (guarded PlainReply) :=
  requireAuth (search_artists_user q).

End LoginOnly.

(** ** The server with the strict state check *)

(** A line break, and the page the strict [/callback] sends on success: the
    template literal of the handler, line by line. *)
Definition nl : string := String (ascii_of_nat 10) EmptyString.

Definition strict_success_page : string :=
  nl ++ "            <script>" ++
  nl ++ "                window.opener.postMessage({ type: 'spotify-auth-success' }, '*');" ++
  nl ++ "                window.close();" ++
  nl ++ "            </script>" ++
  nl ++ "            <h1>Success! You can close this window.</h1>" ++
  nl ++ "        ".

Section Strict.

Variable W : World.

(** The [try] block of its [/callback]: the stored state is left in place. *)
Definition exchange_code_strict (code : string) : M Reply :=
  try_catch
    ('(ok, data) <- fetch W (token_call W (CodeGrant code (REDIRECT_URI W))) ;;
     if negb ok then
       throw (Error (or_default (error_description data) "Failed to get tokens"))
     else
       now <- date_now ;;
       update_session (fun s =>
         {| accessToken := Some (access_token data);
            refreshToken := refresh_token data;
            expiresAt := Some (now + expires_in data * 1000);
            state := state s |}) ;;;
       reply 200 (Html strict_success_page))
    (fun e => reply 500 (Html ("<h1>Error: " ++ message e ++ "</h1>"))).

(** [if (!code || state !== req.session.state)]: the session is read only
    when there is a code. *)
Definition callback_strict (q : Query) : M Reply :=
  let code := or_null (query_code q) in
  let returned := or_null (query_state q) in
  match code with
  | None =>
      reply 400 (Html "<h1>Error: Invalid state or no authorization code</h1>")
  | Some code =>
      s <- get_session ;;
      match s with
      | None =>
          throw (TypeError "Cannot read properties of undefined (reading 'state')")
      | Some s =>
          if negb (strict_eq returned (state s)) then
            reply 400 (Html "<h1>Error: Invalid state or no authorization code</h1>")
          else exchange_code_strict code
      end
  end.

End Strict.

(** ** The service-account server *)

Section ServiceOnly.

Variable W : World.

(** [getAccessToken()] of the server without sessions. *)
Definition getAccessToken_service : M string :=
  match or_null (SERVICE_REFRESH_TOKEN W) with
  | None => throw (Error "Missing SERVICE_REFRESH_TOKEN. Visit /login first.")
  | Some srt =>
      '(ok, data) <- fetch W (token_call W (RefreshGrant srt)) ;;
      if negb ok then
        throw (Error ("Spotify API error: " ++
                      template (or_str (error_description data) (error data))))
      else ret (access_token data)
  end.

End ServiceOnly.

(** ** Reading a run, continued *)

(** [m] adds at most [n] calls to the log. *)
Definition logs_at_most {A : Type} (n : nat) (m : M A) : Prop :=
  forall st,
    exists l, calls (snd (m st)) = (calls st ++ l)%list /\ (List.length l <= n)%nat.

(** Every value [m] returns satisfies [Q]. *)
Definition yields {A : Type} (Q : A -> Prop) (m : M A) : Prop :=
  forall st a st', m st = (Ok a, st') -> Q a.

(** [m] always returns: it never throws. *)
Definition always_returns {A : Type} (m : M A) : Prop :=
  forall st, exists a, fst (m st) = Ok a.

(** The bearer token of a web API call; a token-endpoint call has none. *)
Definition bearer_of (c : call) : option string :=
  match c with
  | TokenCall _ _ _ => None
  | SearchCall _ _ _ tok
  | MeCall tok
  | CreatePlaylistCall _ _ _ tok
  | AddTracksCall _ _ tok => Some tok
  end.

(** More sample runs: an upstream that hands out a token and then refuses
    the two searches; a session whose access token ran out and that has no
    refresh token; a session that went through [/login] with a random string
    of three characters. *)
Definition refusing_searches : World :=
  scripted (Some "service-refresh")
    [ Resp true sample_body; Resp false sample_body; Resp false sample_body ].

Definition expired_no_refresh : St :=
  at_time (session_with (Some "old-token") None (Some 500) None) 1000.

Definition demo_token : TokenResult :=
  {| token := "fresh-token"; token_mode := Demo |}.

(** ** Answers before parsing *)

(** What [await fetch(..)] and [await response.json()] meet on the wire: a
    rejected fetch, an answer whose body parses, or an answer whose body is
    not JSON, for which [response.json()] rejects with node-fetch's error
    whatever the status was. *)
Inductive raw_answer : Type :=
| Rejected (msg : string)
| Parsable (ok : bool) (data : Json)
| Unparsable (ok : bool) (msg : string).

(** The outcome the code sees when it parses the body before it looks at
    [ok], as every exchange but the track insertion does. *)
Definition parsed (r : raw_answer) : outcome :=
  match r with
  | Rejected msg => Threw (FetchError msg)
  | Parsable ok data => Resp ok data
  | Unparsable _ msg => Threw (FetchError msg)
  end.

(** A gateway that hands out a token and then answers the first search with
    a non-success status and an HTML body. *)
Definition bad_gateway : World :=
  scripted (Some "service-refresh")
    [ Resp true sample_body;
      parsed (Unparsable false "invalid json response body") ].

(** A request that gives both years, the first of them 0. *)
Definition from_year_zero : GenerateBody :=
  {| name := JStr "Road Trip";
     artists := JArr ["Queen"];
     songCount := Some 5;
     startYear := Some 0;
     endYear := Some 1985 |}.

(** The session after [/login] drew a random string of three characters. *)
Definition after_short_login : St := snd (login demo_world "0.i" anonymous).

(** * Properties *)

(** ** Token provider *)

Section TokenProvider.

Variable W : World.

Lemma awaited_session (c : call) (st : St) :
  session (awaited W c st) = session st.
Proof. reflexivity. Qed.

Lemma awaited_calls (c : call) (st : St) :
  calls (awaited W c st) = (calls st ++ [c])%list.
Proof. reflexivity. Qed.

Lemma fetch_state (c : call) (st : St) :
  snd (fetch W c st) = awaited W c st.
Proof. unfold fetch. destruct (answer W st c); reflexivity. Qed.

(** The cache test succeeds exactly on a non-empty token with a non-zero
    expiry that lies ahead. *)
Lemma valid_access_token_some (s : Session) (now : Z) (tok : string) :
  valid_access_token (Some s) now = Some tok <->
  accessToken s = Some tok /\ nonempty tok = true /\
  exists exp, expiresAt s = Some exp /\ exp <> 0 /\ now < exp.
Proof.
  unfold valid_access_token.
  destruct (accessToken s) as [t|], (expiresAt s) as [e|];
    try (split; [discriminate | intros (H & _ & x & Hx & _); congruence]).
  destruct (nonempty t) eqn:Ht, (e =? 0) eqn:He, (now <? e) eqn:Hlt; simpl;
    split; try discriminate.
  all: try (intros (Ha & Hn & x & Hx & Hz & Hl);
            injection Ha as ->; injection Hx as <-;
            first [ congruence
                  | apply Z.eqb_eq in He; contradiction
                  | apply Z.ltb_ge in Hlt; lia ]).
  intros [= ->]. repeat split; trivial.
  exists e. apply Z.eqb_neq in He. apply Z.ltb_lt in Hlt. auto.
Qed.

Lemma service_token_keeps_session : keeps_session (service_token W).
Proof.
  intros st. unfold service_token.
  destruct (or_null (SERVICE_REFRESH_TOKEN W)) as [srt|]; [|reflexivity].
  unfold bind, fetch.
  destruct (answer W st _) as [e|[|] d]; reflexivity.
Qed.

Lemma service_token_emits :
  emits (fun c => exists g, c = token_call W g) (service_token W).
Proof.
  intros st. unfold service_token.
  destruct (or_null (SERVICE_REFRESH_TOKEN W)) as [srt|].
  - exists [token_call W (RefreshGrant srt)]. split.
    + unfold bind, fetch. destruct (answer W st _) as [e|[|] d]; reflexivity.
    + repeat constructor. eexists; reflexivity.
  - exists []. split; [simpl; now rewrite app_nil_r | constructor].
Qed.

(** The refresh attempt never throws: it answers with the new token, or
    with nothing once the call is logged. *)
Lemma refresh_user_token_run (rt : string) (st : St) :
  let c := token_call W (RefreshGrant rt) in
  let st1 := awaited W c st in
  refresh_user_token W rt st =
  match answer W st c with
  | Resp true data =>
      (Ok (Some {| token := access_token data; token_mode := User |}),
       {| session :=
            option_map
              (fun s =>
                 {| accessToken := Some (access_token data);
                    refreshToken := refreshToken s;
                    expiresAt :=
                      Some (Z.of_N (clock st1) + expires_in data * 1000);
                    state := state s |})
              (session st);
          calls := calls st1;
          clock := clock st1 |})
  | Resp false _ | Threw _ => (Ok None, st1)
  end.
Proof.
  intros c st1. unfold refresh_user_token, try_catch, bind, fetch.
  fold c. destruct (answer W st c) as [e|[|] data]; reflexivity.
Qed.

Lemma getAccessToken_run (st : St) :
  getAccessToken W st =
  match valid_access_token (session st) (Z.of_N (clock st)) with
  | Some tok => (Ok {| token := tok; token_mode := User |}, st)
  | None =>
      match session_refresh_token (session st) with
      | Some rt =>
          match refresh_user_token W rt st with
          | (Ok (Some r), st') => (Ok r, st')
          | (Ok None, st') => service_token W st'
          | (Throw e, st') => (Throw e, st')
          end
      | None => service_token W st
      end
  end.
Proof.
  unfold getAccessToken, bind, get_session, date_now, ret.
  destruct (valid_access_token _ _); [reflexivity|].
  destruct (session_refresh_token _); [|reflexivity].
  destruct (refresh_user_token W s st) as [[[r|]|e] st']; reflexivity.
Qed.

(** C3.  A session that holds an access token (a non-empty string, which is
    what the code tests) whose expiry lies strictly ahead of the clock gets
    exactly that token back, in user mode; the
    machine state is the one the call started in, so no upstream call was
    logged and no session field changed. *)
Theorem cached_token_is_returned_untouched
    (st : St) (s : Session) (tok : string) (exp : Z) :
  session st = Some s ->
  accessToken s = Some tok ->
  nonempty tok = true ->
  expiresAt s = Some exp ->
  Z.of_N (clock st) < exp ->
  getAccessToken W st = (Ok {| token := tok; token_mode := User |}, st).
Proof.
  intros Hs Ha Hn He Hlt.
  assert (Hv : valid_access_token (Some s) (Z.of_N (clock st)) = Some tok).
  { apply valid_access_token_some. repeat split; trivial.
    exists exp. repeat split; trivial. lia. }
  rewrite getAccessToken_run, Hs, Hv. reflexivity.
Qed.

(** C2.  A session without a valid access token but with a (non-empty)
    refresh token sends that token to the token endpoint, once.  When the upstream accepts
    it, the session gets the new access token and the expiry
    [Date.now() + expires_in * 1000] (milliseconds, read when the answer is
    in), nothing else is logged, and the new token comes back in user mode.
    When the upstream refuses it, or the exchange throws, nothing is raised
    at this point: the call continues as the service-token step, from a state
    that differs from the initial one by that one logged call. *)
Theorem expired_token_is_refreshed_once
    (st : St) (s : Session) (rt : string) :
  session st = Some s ->
  valid_access_token (Some s) (Z.of_N (clock st)) = None ->
  refreshToken s = Some rt ->
  nonempty rt = true ->
  let c := token_call W (RefreshGrant rt) in
  let st1 := awaited W c st in
  match answer W st c with
  | Resp true data =>
      getAccessToken W st =
      (Ok {| token := access_token data; token_mode := User |},
       {| session :=
            Some {| accessToken := Some (access_token data);
                    refreshToken := refreshToken s;
                    expiresAt :=
                      Some (Z.of_N (clock st1) + expires_in data * 1000);
                    state := state s |};
          calls := (calls st ++ [c])%list;
          clock := clock st1 |})
  | Resp false _ | Threw _ =>
      getAccessToken W st = service_token W st1
  end.
Proof.
  intros Hs Hv Hr Hn c st1.
  rewrite getAccessToken_run, Hs, Hv. simpl session_refresh_token.
  unfold or_null, truthy_str. rewrite Hr, Hn.
  rewrite refresh_user_token_run. fold c.
  destruct (answer W st c) as [e|[|] data]; try reflexivity.
  rewrite Hs. cbn [option_map]. rewrite Hr. reflexivity.
Qed.

(** C1.  With no valid access token and no usable refresh token, the call is
    decided by the service refresh token.  When one is configured it is
    exchanged: a successful answer gives its access token in demo mode, a
    refusal raises the upstream-auth error built from the answer, and an
    exchange that throws lets that exception through; there is no further
    step.  When none is configured the call raises the no-credentials error
    without any exchange.  On every one of these paths the session object is
    the one the call started with. *)
Theorem service_token_decides_without_touching_session (st : St) :
  valid_access_token (session st) (Z.of_N (clock st)) = None ->
  refresh_usable W st = false ->
  let st1 := after_refresh_attempt W st in
  session st1 = session st /\
  session (snd (getAccessToken W st)) = session st /\
  match or_null (SERVICE_REFRESH_TOKEN W) with
  | Some srt =>
      let c := token_call W (RefreshGrant srt) in
      match answer W st1 c with
      | Resp true data =>
          getAccessToken W st =
          (Ok {| token := access_token data; token_mode := Demo |},
           awaited W c st1)
      | Resp false data =>
          getAccessToken W st =
          (Throw (Error ("Spotify API error: " ++
                         template (or_str (error_description data)
                                          (error data)))),
           awaited W c st1)
      | Threw e => getAccessToken W st = (Throw e, awaited W c st1)
      end
  | None =>
      getAccessToken W st =
      (Throw (Error "No authentication available. Please log in or configure SERVICE_REFRESH_TOKEN."),
       st1)
  end.
Proof.
  intros Hv Hu st1.
  assert (Hfall : getAccessToken W st = service_token W st1).
  { rewrite getAccessToken_run, Hv. unfold st1, after_refresh_attempt.
    unfold refresh_usable in Hu.
    destruct (session_refresh_token (session st)) as [rt|]; [|reflexivity].
    rewrite refresh_user_token_run.
    destruct (answer W st _) as [e|[|] data]; try reflexivity.
    discriminate. }
  assert (Hs1 : session st1 = session st).
  { unfold st1, after_refresh_attempt.
    destruct (session_refresh_token (session st)); reflexivity. }
  split; [exact Hs1|]. split.
  { rewrite Hfall, service_token_keeps_session. exact Hs1. }
  rewrite Hfall. unfold service_token.
  destruct (or_null (SERVICE_REFRESH_TOKEN W)) as [srt|]; [|reflexivity].
  cbv zeta. unfold bind, fetch.
  destruct (answer W st1 _) as [e|[|] data]; reflexivity.
Qed.

End TokenProvider.

(** ** Call logs of composed computations *)

Section CallLogs.

Variable W : World.

Lemma emits_ret {A : Type} (P : call -> Prop) (a : A) : emits P (ret a).
Proof. intros st. exists []. split; [simpl; now rewrite app_nil_r | constructor]. Qed.

Lemma emits_throw {A : Type} (P : call -> Prop) (e : js_error) :
  emits P (@throw A e).
Proof. intros st. exists []. split; [simpl; now rewrite app_nil_r | constructor]. Qed.

Lemma emits_fetch (P : call -> Prop) (c : call) : P c -> emits P (fetch W c).
Proof.
  intros Hc st. exists [c]. split; [|repeat constructor; exact Hc].
  now rewrite fetch_state.
Qed.

Lemma emits_bind {A B : Type} (P : call -> Prop) (m : M A) (k : A -> M B) :
  emits P m -> (forall a, emits P (k a)) -> emits P (bind m k).
Proof.
  intros Hm Hk st. unfold bind.
  destruct (Hm st) as (l1 & E1 & F1).
  destruct (m st) as [[a|e] st1]; simpl in E1.
  - destruct (Hk a st1) as (l2 & E2 & F2).
    exists (l1 ++ l2)%list. split.
    + now rewrite E2, E1, app_assoc.
    + apply Forall_app; auto.
  - exists l1. auto.
Qed.

Lemma emits_try_catch {A : Type} (P : call -> Prop) (m : M A)
    (h : js_error -> M A) :
  emits P m -> (forall e, emits P (h e)) -> emits P (try_catch m h).
Proof.
  intros Hm Hh st. unfold try_catch.
  destruct (Hm st) as (l1 & E1 & F1).
  destruct (m st) as [[a|e] st1]; simpl in E1.
  - exists l1. auto.
  - destruct (Hh e st1) as (l2 & E2 & F2).
    exists (l1 ++ l2)%list. split.
    + now rewrite E2, E1, app_assoc.
    + apply Forall_app; auto.
Qed.

Lemma emits_weaken {A : Type} (P Q : call -> Prop) (m : M A) :
  (forall c, P c -> Q c) -> emits P m -> emits Q m.
Proof.
  intros HPQ Hm st. destruct (Hm st) as (l & E & F).
  exists l. split; [exact E|]. eapply Forall_impl; eauto.
Qed.

Lemma emits_reply (P : call -> Prop) (code : nat) (b : body) :
  emits P (reply code b).
Proof. apply emits_ret. Qed.

End CallLogs.

Create HintDb calls.
#[local] Hint Resolve emits_ret emits_throw emits_reply : calls.

(** ** OAuth handshake *)

Section Handshake.

Variable W : World.

Lemma exchange_code_run (code : string) (st : St) :
  let c := token_call W (CodeGrant code (REDIRECT_URI W)) in
  let st1 := awaited W c st in
  exchange_code W code st =
  match answer W st c with
  | Resp true data =>
      (Ok {| status := 200; reply_body := AuthSuccessPage |},
       {| session :=
            option_map
              (fun _ =>
                 {| accessToken := Some (access_token data);
                    refreshToken := refresh_token data;
                    expiresAt :=
                      Some (Z.of_N (clock st1) + expires_in data * 1000);
                    state := None |})
              (session st);
          calls := calls st1;
          clock := clock st1 |})
  | Resp false data =>
      (Ok {| status := 500;
             reply_body :=
               Html ("<h1>Error: " ++
                     or_default (error_description data) "Failed to get tokens"
                     ++ "</h1>") |},
       st1)
  | Threw e =>
      (Ok {| status := 500;
             reply_body := Html ("<h1>Error: " ++ message e ++ "</h1>") |},
       st1)
  end.
Proof.
  intros c st1. unfold exchange_code, try_catch, bind, fetch.
  fold c. destruct (answer W st c) as [e|[|] data]; reflexivity.
Qed.

Lemma strict_eq_true (a b : option string) :
  strict_eq a b = true -> exists s, a = Some s /\ b = Some s.
Proof.
  destruct a as [x|], b as [y|]; simpl; try discriminate.
  intros H. apply String.eqb_eq in H. subst. eauto.
Qed.

Lemma or_null_some (o : option string) (s : string) :
  or_null o = Some s -> o = Some s /\ nonempty s = true.
Proof.
  unfold or_null, truthy_str. destruct o as [x|]; [|discriminate].
  destruct (nonempty x) eqn:E; [|discriminate].
  intros [= ->]. auto.
Qed.

(** C5, as amended.  When the session holds a stored, non-empty state and the
    state that comes back on the query differs from it, the handler answers
    400 with an HTML page and the machine state is untouched: no exchange is
    logged and the session, token fields included, is as it was.  When the
    session holds no state, a request that carries a code and no error goes
    on to the authorization-code exchange whatever state it returns: the
    exchange is the one call logged, and its outcome decides the reply.  The
    handler's test for a stored state is [!req.session.state], which an
    empty string passes as well. *)
Theorem callback_state_check (st : St) (s : Session) (q : Query) :
  session st = Some s ->
  (forall stored,
      state s = Some stored -> nonempty stored = true ->
      query_state q <> Some stored ->
      exists page,
        callback W q st = (Ok {| status := 400; reply_body := Html page |}, st))
  /\
  (forall code,
      truthy_str (state s) = false ->
      or_null (query_error q) = None ->
      query_code q = Some code -> nonempty code = true ->
      callback W q st = exchange_code W code st /\
      calls (snd (callback W q st)) =
      (calls st ++ [token_call W (CodeGrant code (REDIRECT_URI W))])%list).
Proof.
  intros Hs. split.
  - intros stored Hst Hne Hdiff. unfold callback.
    destruct (or_null (query_error q)) as [err|]; [eexists; reflexivity|].
    destruct (or_null (query_code q)) as [code|]; [|eexists; reflexivity].
    unfold bind, get_session. rewrite Hs, Hst. cbn [truthy_str].
    rewrite Hne. cbn [negb].
    destruct (strict_eq (or_null (query_state q)) (Some stored)) eqn:E.
    + apply strict_eq_true in E. destruct E as (x & Hx & [= ->]).
      apply or_null_some in Hx. destruct Hx as [Hx _]. contradiction.
    + eexists; reflexivity.
  - intros code Hno Herr Hcode Hne.
    assert (E : callback W q st = exchange_code W code st).
    { assert (Hc : or_null (query_code q) = Some code)
        by (unfold or_null, truthy_str; now rewrite Hcode, Hne).
      unfold callback. rewrite Herr, Hc.
      unfold bind, get_session. rewrite Hs, Hno. reflexivity. }
    split; [exact E|]. rewrite E, exchange_code_run.
    destruct (answer W st _) as [e|[|] data]; reflexivity.
Qed.

End Handshake.

(** C5 as first stated fails on an empty stored state.  After [/login] drew
    the random string [0.i], the session stores the empty string; a callback
    that returns another state, with a code, is not answered 400: the code is
    exchanged and the tokens are stored. *)
Lemma forged_state_admitted_after_short_login :
  session after_short_login =
    Some (session_with None None None (Some EmptyString)) /\
  query_state (callback_query "code-1" "forged") <> Some EmptyString /\
  callback demo_world (callback_query "code-1" "forged") after_short_login =
  (Ok {| status := 200; reply_body := AuthSuccessPage |},
   {| session :=
        Some (session_with (Some "fresh-token") (Some "next-refresh")
                           (Some 3601040) None);
      calls :=
        [ token_call demo_world (CodeGrant "code-1" (REDIRECT_URI demo_world)) ];
      clock := 1040 |}).
Proof.
  split; [reflexivity|]. split; [discriminate|reflexivity].
Qed.

(** ** Playlist generation *)

Section Generation.

Variable W : World.

Lemma bad_song_count_true (b : GenerateBody) :
  bad_song_count b = true <->
  exists n, songCount b = Some n /\ n <> 0 /\ (n < 1 \/ 100 < n).
Proof.
  unfold bad_song_count. destruct (songCount b) as [n|].
  - rewrite andb_true_iff, orb_true_iff, negb_true_iff,
      Z.eqb_neq, !Z.ltb_lt.
    split.
    + intros [H1 H2]. exists n. auto.
    + intros (m & [= <-] & H1 & H2). auto.
  - split; [discriminate | intros (m & E & _); discriminate].
Qed.

(** A request that fails either validation test is answered 400 from the
    state it arrived in. *)
Lemma generate_rejects_invalid (b : GenerateBody) (st : St) :
  invalid_request b = true \/ bad_song_count b = true ->
  exists msg,
    generate W b st = (Ok {| status := 400; reply_body := ErrorJson msg |}, st).
Proof.
  intros H. unfold generate.
  destruct (invalid_request b); [eexists; reflexivity|].
  destruct H as [H|H]; [discriminate|]. rewrite H. eexists; reflexivity.
Qed.

Lemma generate_valid_run (b : GenerateBody) (st : St) :
  invalid_request b = false -> bad_song_count b = false ->
  generate W b st =
  try_catch
    (tr <- getAccessToken W ;;
     allTracks <- collect_tracks W b (token tr) (array_items (artists b)) [] ;;
     if (List.length (selectedUris W b allTracks) =? 0)%nat then
       reply 404 (ErrorJson "No songs found for these artists/years.")
     else create_playlist W b tr (selectedUris W b allTracks))
    generate_failed st.
Proof. intros H1 H2. unfold generate. rewrite H1, H2. reflexivity. Qed.

Lemma yearFilter_cases (b : GenerateBody) :
  (truthy_num (startYear b) && truthy_num (endYear b) = true ->
   exists s e, startYear b = Some s /\ endYear b = Some e /\
               yearFilter b = " year:" ++ num_to_string s ++ "-" ++ num_to_string e)
  /\
  (truthy_num (startYear b) && truthy_num (endYear b) = false ->
   yearFilter b = EmptyString).
Proof.
  unfold yearFilter, truthy_num.
  destruct (startYear b) as [s|], (endYear b) as [e|];
    rewrite ?andb_false_r; cbn [andb];
    try (split; [discriminate|reflexivity]).
  destruct (negb (s =? 0) && negb (e =? 0)); split;
    try discriminate; eauto.
Qed.

Lemma collect_tracks_run (b : GenerateBody) (tok : string)
    (todo : list string) :
  forall (pool : list Track) (st : St),
    searches_respond W b tok (List.length (calls st)) todo ->
    collect_tracks W b tok todo pool st =
    (Ok (pool ++ gathered W b tok (List.length (calls st)) todo)%list,
     {| session := session st;
        calls := (calls st ++ map (track_search b tok) todo)%list;
        clock := clock (fold_left (fun s a => awaited W (track_search b tok a) s)
                                  todo st) |}).
Proof.
  induction todo as [|a rest IH]; intros pool st Hresp.
  - simpl. rewrite !app_nil_r. destruct st; reflexivity.
  - destruct (Hresp 0%nat a eq_refl) as (ok & data & Ha).
    rewrite Nat.add_0_r in Ha.
    assert (Hrest : searches_respond W b tok
                      (List.length (calls (awaited W (track_search b tok a) st)))
                      rest).
    { intros i x Hx. rewrite awaited_calls, length_app. simpl.
      destruct (Hresp (S i) x Hx) as (ok' & d' & E).
      exists ok', d'. rewrite <- E. f_equal. lia. }
    cbn [collect_tracks gathered fold_left map]. unfold bind at 1, fetch, answer.
    rewrite Ha.
    assert (Hlen : List.length (calls (awaited W (track_search b tok a) st))
                   = S (List.length (calls st)))
      by (rewrite awaited_calls, length_app; simpl; lia).
    destruct ok; cbn [negb].
    + destruct (tracks_items data) as [items|];
        rewrite (IH _ _ Hrest), Hlen, awaited_calls, awaited_session;
        rewrite <- ?app_assoc; reflexivity.
    + rewrite (IH _ _ Hrest), Hlen, awaited_calls, awaited_session.
      rewrite <- ?app_assoc. reflexivity.
Qed.

(** Whatever the upstream does, the searches that are issued are those of
    the first artists of the list, in the order of the list. *)
Lemma collect_tracks_calls_prefix (b : GenerateBody) (tok : string)
    (todo : list string) :
  forall (pool : list Track) (st : St),
    exists k,
      calls (snd (collect_tracks W b tok todo pool st)) =
      (calls st ++ map (track_search b tok) (firstn k todo))%list.
Proof.
  induction todo as [|a rest IH]; intros pool st.
  - exists 0%nat. simpl. now rewrite app_nil_r.
  - cbn [collect_tracks]. unfold bind at 1, fetch.
    destruct (answer W st _) as [e|ok data].
    + exists 1%nat. reflexivity.
    + assert (Hgo : forall p,
                exists k,
                  calls (snd (collect_tracks W b tok rest p
                                (awaited W (track_search b tok a) st))) =
                  (calls st ++ map (track_search b tok) (firstn k (a :: rest)))%list).
      { intros p. destruct (IH p (awaited W (track_search b tok a) st)) as (k & E).
        exists (S k). rewrite E, awaited_calls, <- app_assoc. reflexivity. }
      destruct ok; cbn [negb]; [destruct (tracks_items data)|]; apply Hgo.
Qed.

(** C9, as amended.  The loop searches for the artists in the order of the
    request.  The query for an artist is [artist:] followed by the name in
    double quotes, followed by the year filter; the filter is
    [ year:<start>-<end>] when both years are given and non-zero (the test is
    [startYear && endYear]) and is empty otherwise; every search asks for
    tracks with limit 15.  An artist whose search comes back with a
    non-success status and a JSON body is skipped: the loop goes on with the
    remaining artists and the pool it had.  When each search comes back with
    a response whose body parses, the loop issues one search per artist and
    ends with the pool of the successful answers' tracks. *)
Theorem per_artist_search (b : GenerateBody) (tok : string)
    (todo : list string) (pool : list Track) (st : St) :
  searches_respond W b tok (List.length (calls st)) todo ->
  (forall artist,
      track_search b tok artist =
      SearchCall ("artist:" ++ dq ++ artist ++ dq ++ yearFilter b)
                 SearchTracks 15 tok) /\
  (truthy_num (startYear b) && truthy_num (endYear b) = true ->
   exists s e, startYear b = Some s /\ endYear b = Some e /\
               yearFilter b = " year:" ++ num_to_string s ++ "-" ++ num_to_string e) /\
  (truthy_num (startYear b) && truthy_num (endYear b) = false ->
   yearFilter b = EmptyString) /\
  (forall artist rest data,
      answer W st (track_search b tok artist) = Resp false data ->
      collect_tracks W b tok (artist :: rest) pool st =
      collect_tracks W b tok rest pool
        (awaited W (track_search b tok artist) st)) /\
  fst (collect_tracks W b tok todo pool st) =
    Ok (pool ++ gathered W b tok (List.length (calls st)) todo)%list /\
  calls (snd (collect_tracks W b tok todo pool st)) =
    (calls st ++ map (track_search b tok) todo)%list /\
  session (snd (collect_tracks W b tok todo pool st)) = session st.
Proof.
  intros Hresp.
  split; [reflexivity|].
  split; [apply yearFilter_cases|].
  split; [apply yearFilter_cases|].
  split.
  { intros artist rest data Hrefused.
    cbn [collect_tracks]. unfold bind at 1, fetch. now rewrite Hrefused. }
  rewrite (collect_tracks_run b tok todo pool st Hresp). auto.
Qed.

End Generation.

(** C9 as first stated fails in two places.  A request that gives both years,
    the first of them 0, gets no year filter.  And a search that comes back
    with a non-success status and a body that is not JSON does not skip the
    artist: parsing the body throws before the status is looked at, the
    handler replies 500 and the next artist is never searched. *)
Lemma refused_search_aborts_and_year_zero_is_dropped :
  (startYear from_year_zero = Some 0 /\
   endYear from_year_zero = Some 1985 /\
   search_query from_year_zero "Queen" = "artist:" ++ dq ++ "Queen" ++ dq) /\
  respond bad_gateway 1 (track_search (road_trip (Some 5)) "fresh-token" "Queen") =
    parsed (Unparsable false "invalid json response body") /\
  generate bad_gateway (road_trip (Some 5)) anonymous =
  (Ok {| status := 500;
         reply_body :=
           ErrorJson "Failed to generate playlist: invalid json response body" |},
   {| session := Some empty_session;
      calls :=
        [ token_call bad_gateway (RefreshGrant "service-refresh");
          track_search (road_trip (Some 5)) "fresh-token" "Queen" ];
      clock := 1080 |}).
Proof.
  repeat split.
Qed.

Section Selection.

Variable W : World.

Lemma create_playlist_emits (b : GenerateBody) (tr : TokenResult)
    (uris : list string) :
  emits (playlist_step b (token tr) uris) (create_playlist W b tr uris).
Proof.
  unfold create_playlist.
  apply emits_bind; [apply emits_fetch; left; reflexivity|].
  intros [meOk meData]. destruct meOk; cbn [negb]; auto with calls.
  apply emits_bind; [apply emits_fetch; right; left; eexists; reflexivity|].
  intros [createOk playlistData]. destruct createOk; cbn [negb]; auto with calls.
  apply emits_bind; [apply emits_fetch; right; right; eexists; reflexivity|].
  intros _. destruct (external_urls playlistData); auto with calls.
Qed.

Lemma collect_tracks_emits (b : GenerateBody) (tok : string)
    (todo : list string) (pool : list Track) :
  emits (fun c => exists artist, c = track_search b tok artist)
        (collect_tracks W b tok todo pool).
Proof.
  revert pool. induction todo as [|a rest IH]; intros pool; cbn [collect_tracks].
  - apply emits_ret.
  - apply emits_bind; [apply emits_fetch; eexists; reflexivity|].
    intros [ok data]. destruct ok; cbn [negb]; [destruct (tracks_items data)|];
      apply IH.
Qed.

Lemma getAccessToken_emits :
  emits (fun c => exists g, c = token_call W g) (getAccessToken W).
Proof.
  unfold getAccessToken.
  apply emits_bind; [intros st; exists []; simpl; rewrite app_nil_r; auto|].
  intros s.
  apply emits_bind; [intros st; exists []; simpl; rewrite app_nil_r; auto|].
  intros now. destruct (valid_access_token s now); [apply emits_ret|].
  apply emits_bind.
  - destruct (session_refresh_token s) as [rt|]; [|apply emits_ret].
    unfold refresh_user_token.
    apply emits_try_catch; [|intros; apply emits_ret].
    apply emits_bind; [apply emits_fetch; eexists; reflexivity|].
    intros [ok data]. destruct ok; [|apply emits_ret].
    apply emits_bind; [intros st; exists []; simpl; rewrite app_nil_r; auto|].
    intros t.
    apply emits_bind; [intros st; exists []; simpl; rewrite app_nil_r; auto|].
    intros _. apply emits_ret.
  - intros [r|]; [apply emits_ret | apply service_token_emits].
Qed.

Lemma slice0_length {A : Type} (n : Z) (l : list A) :
  0 <= n ->
  Z.of_nat (List.length (slice0 n l)) = Z.min n (Z.of_nat (List.length l)).
Proof.
  intros Hn. unfold slice0.
  destruct (0 <=? n) eqn:E; [|apply Z.leb_gt in E; lia].
  rewrite length_firstn. lia.
Qed.

Lemma slice0_is_prefix {A : Type} (n : Z) (l : list A) :
  exists k, slice0 n l = firstn k l.
Proof. unfold slice0. destruct (0 <=? n); eexists; reflexivity. Qed.

Lemma NoDup_firstn {A : Type} (k : nat) (l : list A) :
  NoDup l -> NoDup (firstn k l).
Proof.
  intros H. rewrite <- (firstn_skipn k l) in H.
  exact (NoDup_app_remove_r _ _ H).
Qed.

(** C4.  For a request that passes validation with a song count between 1
    and 100, the selection made from a candidate pool holds
    [min(songCount, pool size)] URIs, whatever order the randomised sort
    leaves the pool in, and they are pairwise distinct when the pool's are;
    and in a run where the token is resolved and the searches gather the
    pool, every track-insertion call logged after the searches carries
    exactly that selection. *)
Theorem selected_uris_count (b : GenerateBody) (n : Z) :
  sort_permutes W ->
  invalid_request b = false ->
  songCount b = Some n ->
  1 <= n <= 100 ->
  (forall pool,
      Z.of_nat (List.length (selectedUris W b pool)) =
      Z.min n (Z.of_nat (List.length pool))) /\
  (forall pool, NoDup (map uri pool) -> NoDup (selectedUris W b pool)) /\
  (forall st tr st1 pool st2,
      getAccessToken W st = (Ok tr, st1) ->
      collect_tracks W b (token tr) (array_items (artists b)) [] st1 =
        (Ok pool, st2) ->
      exists l,
        calls (snd (generate W b st)) = (calls st2 ++ l)%list /\
        Forall (fun c => forall playlist us tok,
                    c = AddTracksCall playlist us tok ->
                    us = selectedUris W b pool) l).
Proof.
  intros Hperm Hvalid Hcount Hrange.
  assert (Htake : take_count b = n).
  { unfold take_count. rewrite Hcount.
    destruct (n =? 0) eqn:E; [apply Z.eqb_eq in E; lia|reflexivity]. }
  assert (Hgood : bad_song_count b = false).
  { destruct (bad_song_count b) eqn:E; [|reflexivity].
    apply bad_song_count_true in E. destruct E as (m & Hm & _ & Hout).
    rewrite Hcount in Hm. injection Hm as <-. lia. }
  split; [|split].
  - intros pool. unfold selectedUris.
    rewrite length_map, Htake, slice0_length by lia.
    now rewrite (Permutation_length (Hperm pool)).
  - intros pool Hdistinct. unfold selectedUris.
    destruct (slice0_is_prefix (take_count b) (random_sort W pool)) as [k ->].
    rewrite <- firstn_map. apply NoDup_firstn.
    apply (Permutation_NoDup (Permutation_sym (Permutation_map uri (Hperm pool)))).
    exact Hdistinct.
  - intros st tr st1 pool st2 Htok Hpool.
    rewrite (generate_valid_run W b st Hvalid Hgood).
    unfold try_catch, bind at 1. rewrite Htok.
    unfold bind at 1. rewrite Hpool.
    destruct (List.length (selectedUris W b pool) =? 0)%nat.
    + exists []. split; [simpl; now rewrite app_nil_r | constructor].
    + destruct (create_playlist_emits b tr (selectedUris W b pool) st2)
        as (l & E & F).
      exists l. split.
      * destruct (create_playlist W b tr (selectedUris W b pool) st2)
          as [[r|e] st3]; exact E.
      * eapply Forall_impl; [|exact F].
        intros c [->|[(u & ->)|(p & ->)]] playlist us tok; try discriminate.
        now intros [= _ <- _].
Qed.

(** C10.  A request whose name is falsy is answered 400 from the state it
    arrived in, before any upstream call; and whatever the request, every
    playlist-creation call that a run of the handler logs carries the name
    of the request, which is truthy there, so the default name is never the
    one sent. *)
Theorem name_is_required (b : GenerateBody) (st : St) :
  (truthy (name b) = false ->
   generate W b st =
   (Ok {| status := 400;
          reply_body :=
            ErrorJson "Invalid request: name and artists are required" |},
    st)) /\
  exists l,
    calls (snd (generate W b st)) = (calls st ++ l)%list /\
    Forall (fun c => forall user sent public tok,
                c = CreatePlaylistCall user sent public tok ->
                sent = name b /\ truthy sent = true) l.
Proof.
  split.
  - intros Hname. unfold generate, invalid_request. rewrite Hname. reflexivity.
  - revert st.
    change (emits (fun c => forall user sent public tok,
                      c = CreatePlaylistCall user sent public tok ->
                      sent = name b /\ truthy sent = true)
                  (generate W b)).
    unfold generate.
    destruct (invalid_request b) eqn:Hvalid; [apply emits_reply|].
    destruct (bad_song_count b); [apply emits_reply|].
    assert (Hname : truthy (name b) = true).
    { unfold invalid_request in Hvalid.
      destruct (truthy (name b)); [reflexivity|discriminate]. }
    apply emits_try_catch; [|intros; apply emits_reply].
    apply emits_bind.
    { eapply emits_weaken; [|apply getAccessToken_emits].
      intros c [g ->]. discriminate. }
    intros tr. apply emits_bind.
    { eapply emits_weaken; [|apply collect_tracks_emits].
      intros c [a ->]. discriminate. }
    intros pool. cbv zeta.
    destruct (List.length (selectedUris W b pool) =? 0)%nat;
      [apply emits_reply|].
    eapply emits_weaken; [|apply create_playlist_emits].
    intros c [->|[(u & ->)|(p & ->)]] user sent public tok; try discriminate.
    intros [= _ <- _ _]. unfold playlist_title. rewrite Hname. auto.
Qed.

End Selection.

(** ** Where the handlers part from the specification *)

Section Divergences.

Variable W : World.

(** The range test lets a song count of zero through. *)
Lemma zero_song_count_passes (b : GenerateBody) :
  songCount b = Some 0 -> bad_song_count b = false /\ take_count b = 20.
Proof.
  intros H. unfold bad_song_count, take_count. rewrite H. auto.
Qed.

(** The validation that does hold: an empty artists array, and a song count
    below zero or above 100, are answered 400 before anything is called. *)
Lemma generate_rejects_out_of_range (b : GenerateBody) (st : St) :
  artists b = JArr [] \/
  (exists n, songCount b = Some n /\ (n < 0 \/ 100 < n)) ->
  exists msg,
    generate W b st = (Ok {| status := 400; reply_body := ErrorJson msg |}, st).
Proof.
  intros H. apply generate_rejects_invalid. destruct H as [H|(n & Hn & Hr)].
  - left. unfold invalid_request. rewrite H. simpl.
    now rewrite !orb_true_r.
  - right. apply bad_song_count_true. exists n. split; [exact Hn|]. lia.
Qed.

(** The last three steps: whatever [ok] flag the track insertion comes back
    with, a run whose profile and creation calls succeed replies 200. *)
Lemma track_insertion_answer_is_ignored (b : GenerateBody) (tr : TokenResult)
    (uris : list string) (st : St) (meData playlistData data : Json)
    (url : string) (ok : bool) :
  let me := MeCall (token tr) in
  let create :=
    CreatePlaylistCall (data_id meData) (playlist_title b) true (token tr) in
  let add := AddTracksCall (data_id playlistData) uris (token tr) in
  answer W st me = Resp true meData ->
  answer W (awaited W me st) create = Resp true playlistData ->
  external_urls playlistData = Some url ->
  answer W (awaited W create (awaited W me st)) add = Resp ok data ->
  create_playlist W b tr uris st =
  (Ok {| status := 200;
         reply_body :=
           PlaylistJson url (playlist_name playlistData) (token_mode tr) |},
   awaited W add (awaited W create (awaited W me st))).
Proof.
  intros me create add Hme Hcreate Hurl Hadd.
  unfold create_playlist, bind at 1, fetch. fold me. rewrite Hme. cbn [negb].
  unfold bind at 1, fetch. fold create. rewrite Hcreate. cbn [negb].
  unfold bind at 1, fetch. fold add. rewrite Hadd, Hurl. reflexivity.
Qed.

(** A refused profile or creation call, and a track insertion that throws,
    do end in the generic 500. *)
Lemma playlist_steps_that_abort (b : GenerateBody) (tr : TokenResult)
    (uris : list string) (st : St) :
  (forall d, answer W st (MeCall (token tr)) = Resp false d ->
     fst (try_catch (create_playlist W b tr uris) generate_failed st) =
     Ok {| status := 500;
           reply_body :=
             ErrorJson "Failed to generate playlist: Failed to get user information" |})
  /\
  (forall meData d,
     answer W st (MeCall (token tr)) = Resp true meData ->
     answer W (awaited W (MeCall (token tr)) st)
       (CreatePlaylistCall (data_id meData) (playlist_title b) true (token tr))
       = Resp false d ->
     fst (try_catch (create_playlist W b tr uris) generate_failed st) =
     Ok {| status := 500;
           reply_body :=
             ErrorJson "Failed to generate playlist: Failed to create playlist" |})
  /\
  (forall meData playlistData e,
     answer W st (MeCall (token tr)) = Resp true meData ->
     answer W (awaited W (MeCall (token tr)) st)
       (CreatePlaylistCall (data_id meData) (playlist_title b) true (token tr))
       = Resp true playlistData ->
     answer W
       (awaited W
          (CreatePlaylistCall (data_id meData) (playlist_title b) true (token tr))
          (awaited W (MeCall (token tr)) st))
       (AddTracksCall (data_id playlistData) uris (token tr)) = Threw e ->
     fst (try_catch (create_playlist W b tr uris) generate_failed st) =
     Ok {| status := 500;
           reply_body :=
             ErrorJson ("Failed to generate playlist: " ++ message e) |}).
Proof.
  repeat split.
  - intros d Hme. unfold try_catch, create_playlist, bind at 1, fetch.
    rewrite Hme. reflexivity.
  - intros meData d Hme Hcreate.
    unfold try_catch, create_playlist, bind at 1, fetch. rewrite Hme.
    cbn [negb]. unfold bind at 1, fetch. rewrite Hcreate. reflexivity.
  - intros meData playlistData e Hme Hcreate Hadd.
    unfold try_catch, create_playlist, bind at 1, fetch. rewrite Hme.
    cbn [negb]. unfold bind at 1, fetch. rewrite Hcreate.
    cbn [negb]. unfold bind at 1, fetch. rewrite Hadd. reflexivity.
Qed.

(** Without [q], the reply of the search handler is decided by the token
    resolution that runs first, and the state is the one it leaves. *)
Lemma missing_query_run (q : Query) (st : St) :
  or_null (query_q q) = None ->
  search_artists W q st =
  match getAccessToken W st with
  | (Ok _, st') =>
      (Ok {| status := 400;
             reply_body :=
               ErrorJson ("Query parameter " ++ dq ++ "q" ++ dq ++ " is required") |},
       st')
  | (Throw e, st') =>
      (Ok {| status := 500; reply_body := ErrorJson (message e) |}, st')
  end.
Proof.
  intros Hq. unfold search_artists, try_catch, bind. rewrite Hq.
  destruct (getAccessToken W st) as [[tr|e] st']; reflexivity.
Qed.

End Divergences.

(** C6.  The request [{name: "Road Trip", artists: ["Queen", "ABBA"],
    songCount: 0}] is not answered 400: the range test is skipped for a
    falsy count, the token is resolved, both artists are searched, and a
    playlist is created from twenty-at-most tracks. *)
Theorem zero_song_count_reaches_upstream :
  bad_song_count (road_trip (Some 0)) = false /\
  fst (generate demo_world (road_trip (Some 0)) anonymous) =
    Ok {| status := 200;
          reply_body :=
            PlaylistJson "https://open.spotify.com/playlist/id-1"
                         (Some "Road Trip") Demo |} /\
  calls (snd (generate demo_world (road_trip (Some 0)) anonymous)) =
    [ token_call demo_world (RefreshGrant "service-refresh");
      track_search (road_trip (Some 0)) "fresh-token" "Queen";
      track_search (road_trip (Some 0)) "fresh-token" "ABBA";
      MeCall "fresh-token";
      CreatePlaylistCall "id-1" (JStr "Road Trip") true "fresh-token";
      AddTracksCall "id-1"
        [ "spotify:track:3"; "spotify:track:2"; "spotify:track:1";
          "spotify:track:3"; "spotify:track:2"; "spotify:track:1" ]
        "fresh-token" ].
Proof. repeat split. Qed.

(** C7.  With an upstream that accepts the profile and creation calls and
    refuses the track insertion, the handler replies 200 with the playlist's
    URL: the refusal is not surfaced. *)
Theorem refused_track_insertion_replies_success :
  respond refusing_insertion 5
    (AddTracksCall "id-1"
       [ "spotify:track:3"; "spotify:track:2"; "spotify:track:1";
         "spotify:track:3"; "spotify:track:2" ]
       "fresh-token")
  = Resp false sample_body /\
  generate refusing_insertion (road_trip (Some 5)) anonymous =
  (Ok {| status := 200;
         reply_body :=
           PlaylistJson "https://open.spotify.com/playlist/id-1"
                        (Some "Road Trip") Demo |},
   {| session := Some empty_session;
      calls :=
        [ token_call refusing_insertion (RefreshGrant "service-refresh");
          track_search (road_trip (Some 5)) "fresh-token" "Queen";
          track_search (road_trip (Some 5)) "fresh-token" "ABBA";
          MeCall "fresh-token";
          CreatePlaylistCall "id-1" (JStr "Road Trip") true "fresh-token";
          AddTracksCall "id-1"
            [ "spotify:track:3"; "spotify:track:2"; "spotify:track:1";
              "spotify:track:3"; "spotify:track:2" ]
            "fresh-token" ];
      clock := 1240 |}).
Proof. split; reflexivity. Qed.

(** C8.  A search request without [q] resolves a token before it looks at
    the query.  With a stale session that has a refresh token, the refresh
    exchange is made and the session rewritten before the 400 goes out; with
    no credentials at all the reply is 500, not 400. *)
Theorem missing_query_is_checked_after_token :
  search_artists demo_world no_query stale =
  (Ok {| status := 400;
         reply_body :=
           ErrorJson ("Query parameter " ++ dq ++ "q" ++ dq ++ " is required") |},
   {| session :=
        Some (session_with (Some "fresh-token") (Some "user-refresh")
                           (Some 3601040) None);
      calls := [ token_call demo_world (RefreshGrant "user-refresh") ];
      clock := 1040 |}) /\
  search_artists no_demo_world no_query anonymous =
  (Ok {| status := 500;
         reply_body :=
           ErrorJson "No authentication available. Please log in or configure SERVICE_REFRESH_TOKEN." |},
   anonymous).
Proof. split; reflexivity. Qed.

(** ** The theorems at work on sample runs *)

Lemma scripted_sort_permutes (srt : option string) (script : list outcome) :
  sort_permutes (scripted srt script).
Proof. intros l. simpl. symmetry. apply Permutation_rev. Qed.

Lemma refusing_first_responds (b : GenerateBody) (tok : string)
    (todo : list string) :
  searches_respond refusing_first b tok 0 todo.
Proof.
  intros i artist _. simpl.
  destruct i as [|[|i]]; eexists; eexists; reflexivity.
Qed.

Lemma cached_token_witness :
  getAccessToken no_demo_world fresh =
  (Ok {| token := "user-token"; token_mode := User |}, fresh).
Proof.
  apply (@cached_token_is_returned_untouched no_demo_world fresh
           (session_with (Some "user-token") (Some "user-refresh")
                         (Some 2000) None)
           "user-token" 2000); reflexivity.
Defined.

Lemma refresh_witness :
  valid_access_token (session stale) 1000 = None /\
  getAccessToken demo_world stale =
  (Ok {| token := "fresh-token"; token_mode := User |},
   {| session :=
        Some (session_with (Some "fresh-token") (Some "user-refresh")
                           (Some 3601040) None);
      calls := [ token_call demo_world (RefreshGrant "user-refresh") ];
      clock := 1040 |}) /\
  getAccessToken refusing_first stale =
  service_token refusing_first
    (awaited refusing_first
       (token_call refusing_first (RefreshGrant "user-refresh")) stale).
Proof.
  split; [reflexivity|]. split.
  - exact (@expired_token_is_refreshed_once demo_world stale
             (session_with (Some "old-token") (Some "user-refresh")
                           (Some 500) None)
             "user-refresh" eq_refl eq_refl eq_refl eq_refl).
  - exact (@expired_token_is_refreshed_once refusing_first stale
             (session_with (Some "old-token") (Some "user-refresh")
                           (Some 500) None)
             "user-refresh" eq_refl eq_refl eq_refl eq_refl).
Defined.

Lemma service_token_witness :
  refresh_usable refusing_first stale = false /\
  getAccessToken refusing_first stale =
  (Ok {| token := "fresh-token"; token_mode := Demo |},
   {| session := session stale;
      calls := [ token_call refusing_first (RefreshGrant "user-refresh");
                 token_call refusing_first (RefreshGrant "service-refresh") ];
      clock := 1080 |}) /\
  getAccessToken no_demo_world anonymous =
  (Throw (Error "No authentication available. Please log in or configure SERVICE_REFRESH_TOKEN."),
   anonymous).
Proof.
  split; [reflexivity|]. split.
  - exact (proj2 (proj2 (@service_token_decides_without_touching_session
                           refusing_first stale eq_refl eq_refl))).
  - exact (proj2 (proj2 (@service_token_decides_without_touching_session
                           no_demo_world anonymous eq_refl eq_refl))).
Defined.

Lemma selection_witness :
  Z.of_nat (List.length (selectedUris demo_world (road_trip (Some 5))
                           (sample_tracks ++ sample_tracks))) = 5 /\
  Z.of_nat (List.length (selectedUris demo_world (road_trip (Some 5))
                           sample_tracks)) = 3 /\
  exists l,
    calls (snd (generate demo_world (road_trip (Some 5)) anonymous)) =
    ([ token_call demo_world (RefreshGrant "service-refresh");
       track_search (road_trip (Some 5)) "fresh-token" "Queen";
       track_search (road_trip (Some 5)) "fresh-token" "ABBA" ] ++ l)%list /\
    Forall (fun c => forall playlist us tok,
                c = AddTracksCall playlist us tok ->
                us = selectedUris demo_world (road_trip (Some 5))
                       (sample_tracks ++ sample_tracks)) l.
Proof.
  assert (R : 1 <= 5 <= 100) by (split; discriminate).
  pose proof (@selected_uris_count demo_world (road_trip (Some 5)) 5
                (scripted_sort_permutes _ _) eq_refl eq_refl R)
    as (Hsize & _ & Hsent).
  split; [apply Hsize|]. split; [apply Hsize|].
  exact (Hsent anonymous
           {| token := "fresh-token"; token_mode := Demo |}
           (awaited demo_world
              (token_call demo_world (RefreshGrant "service-refresh")) anonymous)
           (sample_tracks ++ sample_tracks)%list
           {| session := Some empty_session;
              calls :=
                [ token_call demo_world (RefreshGrant "service-refresh");
                  track_search (road_trip (Some 5)) "fresh-token" "Queen";
                  track_search (road_trip (Some 5)) "fresh-token" "ABBA" ];
              clock := 1120 |}
           eq_refl eq_refl).
Defined.

Lemma callback_witness :
  (exists page,
     callback demo_world (callback_query "code-1" "forged") awaiting =
     (Ok {| status := 400; reply_body := Html page |}, awaiting)) /\
  calls (snd (callback demo_world (callback_query "code-1" "forged") anonymous)) =
  [ token_call demo_world (CodeGrant "code-1" (REDIRECT_URI demo_world)) ].
Proof.
  split.
  - apply (proj1 (@callback_state_check demo_world awaiting
                    (session_with None None None (Some "k3x9qz"))
                    (callback_query "code-1" "forged") eq_refl) "k3x9qz");
      [reflexivity | reflexivity | discriminate].
  - apply (proj2 (@callback_state_check demo_world anonymous empty_session
                    (callback_query "code-1" "forged") eq_refl) "code-1");
      reflexivity.
Defined.

Lemma per_artist_search_witness :
  fst (collect_tracks refusing_first (road_trip None) "fresh-token"
         ["Queen"; "ABBA"] [] anonymous) = Ok sample_tracks /\
  calls (snd (collect_tracks refusing_first (road_trip None) "fresh-token"
                ["Queen"; "ABBA"] [] anonymous)) =
  [ track_search (road_trip None) "fresh-token" "Queen";
    track_search (road_trip None) "fresh-token" "ABBA" ].
Proof.
  pose proof (@per_artist_search refusing_first (road_trip None) "fresh-token"
                ["Queen"; "ABBA"] [] anonymous
                (refusing_first_responds _ _ _)) as H.
  destruct H as (_ & _ & _ & _ & Hpool & Hcalls & _).
  split; [exact Hpool | exact Hcalls].
Defined.

Lemma nameless_witness :
  truthy (name nameless) = false /\
  generate demo_world nameless anonymous =
  (Ok {| status := 400;
         reply_body :=
           ErrorJson "Invalid request: name and artists are required" |},
   anonymous).
Proof.
  split; [reflexivity|].
  exact (proj1 (name_is_required demo_world nameless anonymous) eq_refl).
Defined.

(** * Further properties *)

(** ** Token resolution *)

Section TokenFrame.

Variable W : World.

Lemma app_one_neq {A : Type} (l : list A) (x : A) : (l ++ [x])%list <> l.
Proof.
  intros H. apply (f_equal (@List.length A)) in H.
  rewrite length_app in H. simpl in H. lia.
Qed.

Lemma awaited_neq (c : call) (st : St) : awaited W c st <> st.
Proof.
  intros H. apply (f_equal calls) in H. rewrite awaited_calls in H.
  exact (app_one_neq _ _ H).
Qed.

(** The run of the service-token step, case by case. *)
Lemma service_token_run (st : St) :
  service_token W st =
  match or_null (SERVICE_REFRESH_TOKEN W) with
  | Some srt =>
      let c := token_call W (RefreshGrant srt) in
      match answer W st c with
      | Resp true data =>
          (Ok {| token := access_token data; token_mode := Demo |},
           awaited W c st)
      | Resp false data =>
          (Throw (Error ("Spotify API error: " ++
                         template (or_str (error_description data)
                                          (error data)))),
           awaited W c st)
      | Threw e => (Throw e, awaited W c st)
      end
  | None =>
      (Throw (Error "No authentication available. Please log in or configure SERVICE_REFRESH_TOKEN."),
       st)
  end.
Proof.
  unfold service_token.
  destruct (or_null (SERVICE_REFRESH_TOKEN W)) as [srt|]; [|reflexivity].
  cbv zeta. unfold bind, fetch.
  destruct (answer W st _) as [e|[|] data]; reflexivity.
Qed.

Lemma service_token_mode (st : St) (r : TokenResult) (st' : St) :
  service_token W st = (Ok r, st') ->
  token_mode r = Demo /\
  exists srt,
    or_null (SERVICE_REFRESH_TOKEN W) = Some srt /\
    st' = awaited W (token_call W (RefreshGrant srt)) st.
Proof.
  rewrite service_token_run.
  destruct (or_null (SERVICE_REFRESH_TOKEN W)) as [srt|]; [|discriminate].
  cbv zeta. destruct (answer W st _) as [e|[|] data]; try discriminate.
  intros [= <- <-]. split; [reflexivity|]. eauto.
Qed.

(** X1.  Token resolution keeps the session in place and never touches its
    refresh token or stored state.  A token returned in user mode is the
    access token the session holds afterwards; on every other outcome, a
    demo token or an exception, the session is exactly as it was. *)
Theorem token_resolution_frames_session (st : St) :
  match session st, session (snd (getAccessToken W st)) with
  | Some s, Some s' => refreshToken s' = refreshToken s /\ state s' = state s
  | None, None => True
  | _, _ => False
  end /\
  (forall tok,
      fst (getAccessToken W st) = Ok {| token := tok; token_mode := User |} ->
      exists s', session (snd (getAccessToken W st)) = Some s' /\
                 accessToken s' = Some tok) /\
  ((forall tok,
       fst (getAccessToken W st) <> Ok {| token := tok; token_mode := User |}) ->
   session (snd (getAccessToken W st)) = session st).
Proof.
  rewrite getAccessToken_run.
  destruct (valid_access_token (session st) (Z.of_N (clock st))) as [tok|] eqn:Hv.
  - (* answered from the session *)
    destruct (session st) as [s|] eqn:Hs; [|discriminate].
    apply valid_access_token_some in Hv. destruct Hv as (Ha & _).
    cbn [fst snd]. rewrite Hs. repeat split; auto.
    intros t [= <-]. eauto.
  - assert (Hsvc : forall st1,
               session st1 = session st ->
               match session st, session (snd (service_token W st1)) with
               | Some s, Some s' =>
                   refreshToken s' = refreshToken s /\ state s' = state s
               | None, None => True
               | _, _ => False
               end /\
               (forall tok,
                   fst (service_token W st1) =
                   Ok {| token := tok; token_mode := User |} ->
                   exists s', session (snd (service_token W st1)) = Some s' /\
                              accessToken s' = Some tok) /\
               session (snd (service_token W st1)) = session st).
    { intros st1 H1. pose proof (service_token_keeps_session W st1) as K.
      rewrite K, H1.
      split; [destruct (session st); auto|]. split; [|reflexivity].
      intros tok Hr. destruct (service_token W st1) as [[r|e] st2] eqn:E;
        [|discriminate].
      apply service_token_mode in E. destruct E as [Hm _].
      cbn in Hr. injection Hr as ->. discriminate. }
    destruct (session_refresh_token (session st)) as [rt|] eqn:Hrt.
    + rewrite refresh_user_token_run. cbv zeta.
      destruct (answer W st _) as [e|[|] data].
      * destruct (Hsvc (awaited W (token_call W (RefreshGrant rt)) st) eq_refl)
          as (H1 & H2 & H3). auto.
      * cbn [fst snd session].
        destruct (session st) as [s|]; [|discriminate].
        cbn [option_map]. repeat split; eauto.
        -- intros t [= <-]. eauto.
        -- intros Hno. exfalso. apply (Hno (access_token data)). reflexivity.
      * destruct (Hsvc (awaited W (token_call W (RefreshGrant rt)) st) eq_refl)
          as (H1 & H2 & H3). auto.
    + destruct (Hsvc st eq_refl) as (H1 & H2 & H3). auto.
Qed.

(** X3.  A refreshed token is served from the session afterwards: when the
    refresh comes back with a non-empty token and a positive lifetime, a
    second resolution right after the first returns that token from the
    state the first one left, with nothing sent upstream. *)
Theorem refreshed_token_is_cached
    (st : St) (s : Session) (rt : string) (data : Json) :
  session st = Some s ->
  valid_access_token (Some s) (Z.of_N (clock st)) = None ->
  refreshToken s = Some rt ->
  nonempty rt = true ->
  answer W st (token_call W (RefreshGrant rt)) = Resp true data ->
  nonempty (access_token data) = true ->
  0 < expires_in data ->
  let st' := snd (getAccessToken W st) in
  fst (getAccessToken W st) =
    Ok {| token := access_token data; token_mode := User |} /\
  getAccessToken W st' =
    (Ok {| token := access_token data; token_mode := User |}, st').
Proof.
  intros Hs Hv Hr Hn Hans Htok Hlife st'.
  assert (Hrun : getAccessToken W st =
                 (Ok {| token := access_token data; token_mode := User |},
                  {| session :=
                       Some {| accessToken := Some (access_token data);
                               refreshToken := refreshToken s;
                               expiresAt :=
                                 Some (Z.of_N (clock (awaited W (token_call W (RefreshGrant rt)) st))
                                       + expires_in data * 1000);
                               state := state s |};
                     calls := calls (awaited W (token_call W (RefreshGrant rt)) st);
                     clock := clock (awaited W (token_call W (RefreshGrant rt)) st) |})).
  { rewrite getAccessToken_run, Hs, Hv. cbn [session_refresh_token].
    unfold or_null, truthy_str. rewrite Hr, Hn.
    rewrite refresh_user_token_run. cbv zeta. rewrite Hans, Hs.
    cbn [option_map]. rewrite Hr. reflexivity. }
  unfold st'. rewrite Hrun. cbn [fst snd]. split; [reflexivity|].
  rewrite getAccessToken_run. cbn [session clock].
  match goal with
  | |- context [valid_access_token ?a ?b] =>
      assert (Hhit : valid_access_token a b = Some (access_token data))
  end.
  { apply valid_access_token_some. cbn. repeat split; trivial.
    eexists. split; [reflexivity|]. split; lia. }
  rewrite Hhit. reflexivity.
Qed.

(** X4.  A demo token is never served from memory: whenever resolution ends
    in demo mode, the last request logged is the exchange of the configured
    service refresh token, made in this very call, and the session is as it
    was. *)
Theorem demo_token_costs_an_exchange (st : St) (r : TokenResult) (st' : St) :
  getAccessToken W st = (Ok r, st') ->
  token_mode r = Demo ->
  session st' = session st /\
  exists srt before,
    or_null (SERVICE_REFRESH_TOKEN W) = Some srt /\
    calls st' = (before ++ [token_call W (RefreshGrant srt)])%list /\
    (List.length (calls st) <= List.length before)%nat.
Proof.
  rewrite getAccessToken_run.
  destruct (valid_access_token _ _); [intros [= <- <-]; discriminate|].
  assert (Hsvc : forall st1,
             session st1 = session st ->
             (List.length (calls st) <= List.length (calls st1))%nat ->
             service_token W st1 = (Ok r, st') ->
             session st' = session st /\
             exists srt before,
               or_null (SERVICE_REFRESH_TOKEN W) = Some srt /\
               calls st' = (before ++ [token_call W (RefreshGrant srt)])%list /\
               (List.length (calls st) <= List.length before)%nat).
  { intros st1 H1 Hlen E. apply service_token_mode in E.
    destruct E as (_ & srt & Hsrt & ->). split; [exact H1|].
    exists srt, (calls st1). auto. }
  destruct (session_refresh_token (session st)) as [rt|].
  - rewrite refresh_user_token_run. cbv zeta.
    destruct (answer W st _) as [e|[|] data].
    + intros E _.
      apply (Hsvc (awaited W (token_call W (RefreshGrant rt)) st) eq_refl);
        [|exact E].
      rewrite awaited_calls, length_app. lia.
    + intros [= <- <-]. discriminate.
    + intros E _.
      apply (Hsvc (awaited W (token_call W (RefreshGrant rt)) st) eq_refl);
        [|exact E].
      rewrite awaited_calls, length_app. lia.
  - intros E _. apply (Hsvc st eq_refl); [lia | exact E].
Qed.

End TokenFrame.

(** ** Handshake *)

Section HandshakeRuns.

Variable W : World.

Lemma or_null_keeps [o : option string] [s : string] :
  o = Some s -> nonempty s = true -> or_null o = Some s.
Proof. intros -> H. unfold or_null, truthy_str. now rewrite H. Qed.

Lemma strict_eq_refl (s : string) : strict_eq (Some s) (Some s) = true.
Proof. simpl. apply String.eqb_refl. Qed.

(** The two ways a callback can go when the request has a session. *)
Lemma callback_cases (q : Query) (st : St) [s : Session] :
  session st = Some s ->
  (exists page,
      callback W q st = (Ok {| status := 400; reply_body := Html page |}, st)) \/
  (exists code,
      or_null (query_error q) = None /\
      or_null (query_code q) = Some code /\
      (truthy_str (state s) = false \/
       (truthy_str (state s) = true /\ query_state q = state s)) /\
      callback W q st = exchange_code W code st).
Proof.
  intros Hs. unfold callback.
  destruct (or_null (query_error q)) as [err|]; [left; eexists; reflexivity|].
  destruct (or_null (query_code q)) as [code|]; [|left; eexists; reflexivity].
  unfold bind, get_session. rewrite Hs.
  destruct (truthy_str (state s)) eqn:Ht; cbn [negb].
  - destruct (strict_eq (or_null (query_state q)) (state s)) eqn:E; cbn [negb].
    + right. exists code. repeat split; trivial. right. split; [reflexivity|].
      apply strict_eq_true in E. destruct E as (x & Hx & Hst).
      apply or_null_some in Hx. destruct Hx as [Hx _]. congruence.
    + left. eexists; reflexivity.
  - right. exists code. repeat split; trivial. now left.
Qed.

(** A request that passes the tests reaches the exchange. *)
Lemma callback_admitted (q : Query) (st : St) [s : Session] (code : string) :
  session st = Some s ->
  or_null (query_error q) = None ->
  or_null (query_code q) = Some code ->
  truthy_str (state s) = false \/ query_state q = state s ->
  callback W q st = exchange_code W code st.
Proof.
  intros Hs He Hc Hpass. unfold callback. rewrite He, Hc.
  unfold bind, get_session. rewrite Hs.
  destruct (truthy_str (state s)) eqn:Ht; cbn [negb]; [|reflexivity].
  destruct Hpass as [Hf|Heq]; [discriminate|].
  destruct (state s) as [x|] eqn:Hx; [|discriminate].
  cbn [truthy_str] in Ht.
  rewrite (or_null_keeps Heq Ht), strict_eq_refl. reflexivity.
Qed.

(** What a reply of 200 from the exchange tells. *)
Lemma exchange_code_200 (code : string) (st : St) [s : Session]
    [r : Reply] [st' : St] :
  session st = Some s ->
  exchange_code W code st = (Ok r, st') ->
  status r = 200%nat ->
  let c := token_call W (CodeGrant code (REDIRECT_URI W)) in
  exists data,
    answer W st c = Resp true data /\
    r = {| status := 200; reply_body := AuthSuccessPage |} /\
    st' = {| session :=
               Some {| accessToken := Some (access_token data);
                       refreshToken := refresh_token data;
                       expiresAt :=
                         Some (Z.of_N (clock (awaited W c st))
                               + expires_in data * 1000);
                       state := None |};
             calls := (calls st ++ [c])%list;
             clock := clock (awaited W c st) |}.
Proof.
  intros Hs. rewrite exchange_code_run. cbv zeta.
  destruct (answer W st _) as [e|[|] data].
  - intros [= <- <-]. discriminate.
  - intros [= <- <-] _. exists data. rewrite Hs. repeat split.
  - intros [= <- <-]. discriminate.
Qed.

Lemma exchange_code_other (code : string) (st : St) [r : Reply] [st' : St] :
  exchange_code W code st = (Ok r, st') ->
  status r <> 200%nat ->
  status r = 500%nat /\
  st' = awaited W (token_call W (CodeGrant code (REDIRECT_URI W))) st.
Proof.
  rewrite exchange_code_run. cbv zeta.
  destruct (answer W st _) as [e|[|] data]; intros [= <- <-] H; auto.
  now contradiction H.
Qed.

Lemma exchange_code_replies (code : string) (st : St) :
  exists r, fst (exchange_code W code st) = Ok r /\
            (status r = 200%nat \/ status r = 500%nat) /\
            calls (snd (exchange_code W code st)) =
            (calls st ++ [token_call W (CodeGrant code (REDIRECT_URI W))])%list.
Proof.
  rewrite exchange_code_run. cbv zeta.
  destruct (answer W st _) as [e|[|] data]; eexists; cbn; eauto.
Qed.

(** X5.  The callback goes upstream, or changes anything at all, only for a
    request that carries a code and no error and whose state passes the
    check: the session has no stored state, or the returned state is the
    stored one.  What it then logs is the one authorization-code exchange
    for that code. *)
Theorem callback_acts_only_when_admitted (q : Query) (st : St) (s : Session) :
  session st = Some s ->
  snd (callback W q st) <> st ->
  or_null (query_error q) = None /\
  exists code,
    or_null (query_code q) = Some code /\
    (truthy_str (state s) = false \/ query_state q = state s) /\
    calls (snd (callback W q st)) =
    (calls st ++ [token_call W (CodeGrant code (REDIRECT_URI W))])%list.
Proof.
  intros Hs Hact.
  destruct (callback_cases q st Hs) as [(page & E)|(code & He & Hc & Hp & E)].
  - rewrite E in Hact. now contradiction Hact.
  - split; [exact He|]. exists code. split; [exact Hc|]. split.
    + destruct Hp as [H|[_ H]]; auto.
    + rewrite E. destruct (exchange_code_replies code st) as (r & _ & _ & C).
      exact C.
Qed.

(** X6.  With a session, the callback always replies, with 200, 400 or 500.
    The session holds new tokens exactly after a 200: the request then had a
    code, the upstream accepted its exchange, and the state left is the one
    with that exchange logged and a session made of the access token and the
    refresh token of that very answer, the expiry
    [Date.now() + expires_in * 1000] read once the answer was in, and no
    stored state; after a 400 or a 500 the session is the one the request
    came with. *)
Theorem callback_stores_tokens_only_on_success
    (q : Query) (st : St) (s : Session) :
  session st = Some s ->
  exists r,
    fst (callback W q st) = Ok r /\
    (status r = 200%nat \/ status r = 400%nat \/ status r = 500%nat) /\
    (status r = 200%nat ->
     exists code data,
       or_null (query_code q) = Some code /\
       answer W st (token_call W (CodeGrant code (REDIRECT_URI W))) =
         Resp true data /\
       snd (callback W q st) =
       {| session :=
            Some {| accessToken := Some (access_token data);
                    refreshToken := refresh_token data;
                    expiresAt :=
                      Some (Z.of_N (clock st
                                    + elapsed W (List.length (calls st))
                                        (token_call W (CodeGrant code (REDIRECT_URI W))))
                            + expires_in data * 1000);
                    state := None |};
          calls :=
            (calls st ++ [token_call W (CodeGrant code (REDIRECT_URI W))])%list;
          clock :=
            (clock st
             + elapsed W (List.length (calls st))
                 (token_call W (CodeGrant code (REDIRECT_URI W))))%N |}) /\
    (status r <> 200%nat -> session (snd (callback W q st)) = session st).
Proof.
  intros Hs.
  destruct (callback_cases q st Hs) as [(page & E)|(code & _ & Hc & _ & E)];
    rewrite E.
  - eexists. split; [reflexivity|]. cbn. repeat split; auto.
    intros H; discriminate.
  - destruct (exchange_code W code st) as [[r|e] st'] eqn:Ex.
    + exists r. split; [reflexivity|]. cbn [fst snd].
      destruct (exchange_code_replies code st) as (r0 & Hr0 & Hst & _).
      rewrite Ex in Hr0. cbn in Hr0. injection Hr0 as <-.
      split; [tauto|]. split.
      * intros H200.
        destruct (exchange_code_200 code st Hs Ex H200) as (data & Ha & _ & Hst').
        exists code, data. split; [exact Hc|]. split; [exact Ha|].
        rewrite Hst'. reflexivity.
      * intros Hnot. destruct (exchange_code_other code st Ex Hnot) as [_ ->].
        reflexivity.
    + destruct (exchange_code_replies code st) as (r0 & Hr0 & _).
      rewrite Ex in Hr0. discriminate.
Qed.

(** X7.  Logging in pays off at once: after a callback that replied 200 on
    an upstream that hands out non-empty tokens with a positive lifetime,
    token resolution returns the stored token in user mode from the state
    the callback left, with nothing sent upstream. *)
Theorem login_token_is_served_from_session
    (q : Query) (st : St) (s : Session) (r : Reply) (st' : St) :
  session st = Some s ->
  callback W q st = (Ok r, st') ->
  status r = 200%nat ->
  (forall code data,
      answer W st (token_call W (CodeGrant code (REDIRECT_URI W))) = Resp true data ->
      nonempty (access_token data) = true /\ 0 < expires_in data) ->
  exists tok,
    getAccessToken W st' = (Ok {| token := tok; token_mode := User |}, st').
Proof.
  intros Hs Hrun H200 Hcontract.
  destruct (callback_cases q st Hs) as [(page & E)|(code & _ & _ & _ & E)].
  - rewrite E in Hrun. injection Hrun as <- <-. discriminate.
  - rewrite E in Hrun.
    destruct (exchange_code_200 code st Hs Hrun H200) as (data & Ha & _ & Hst').
    destruct (Hcontract code data Ha) as [Htok Hlife].
    exists (access_token data).
    rewrite getAccessToken_run.
    assert (Hhit : valid_access_token (session st') (Z.of_N (clock st'))
                   = Some (access_token data)).
    { rewrite Hst'. cbn [session clock].
      apply valid_access_token_some. cbn. repeat split; trivial.
      eexists. split; [reflexivity|]. split; lia. }
    rewrite Hhit. reflexivity.
Qed.

(** X8.  The state check is spent by a successful callback: the stored state
    is gone, so in the state it leaves every further callback that carries a
    code and no error goes on to the exchange, whatever state it returns. *)
Theorem state_check_is_off_after_success
    (q : Query) (st : St) (s : Session) (r : Reply) (st' : St) :
  session st = Some s ->
  callback W q st = (Ok r, st') ->
  status r = 200%nat ->
  forall q' code',
    or_null (query_error q') = None ->
    or_null (query_code q') = Some code' ->
    callback W q' st' = exchange_code W code' st'.
Proof.
  intros Hs Hrun H200 q' code' He Hc.
  destruct (callback_cases q st Hs) as [(page & E)|(code & _ & _ & _ & E)].
  - rewrite E in Hrun. injection Hrun as <- <-. discriminate.
  - rewrite E in Hrun.
    destruct (exchange_code_200 code st Hs Hrun H200) as (data & _ & _ & Hst').
    eapply callback_admitted; eauto.
    + rewrite Hst'. reflexivity.
    + left. reflexivity.
Qed.

End HandshakeRuns.

(** ** Login, logout and the status route *)

Section SessionRoutes.

Variable W : World.

Lemma substring_from_nonempty (s : string) :
  forall n, nonempty (substring_from n s) = true <-> (n < String.length s)%nat.
Proof.
  unfold substring_from.
  induction s as [|c s IH]; intros n.
  - destruct n; simpl; split; (discriminate || lia).
  - destruct n as [|n].
    + simpl. split; [lia|reflexivity].
    + cbn [String.length String.substring Nat.sub]. rewrite IH. lia.
Qed.

Lemma login_run (rnd : string) (st : St) [s : Session] :
  session st = Some s ->
  login W rnd st =
  (Ok {| response_type := "code";
         redirect_client_id := CLIENT_ID W;
         scope := "playlist-modify-public playlist-modify-private";
         redirect_target := REDIRECT_URI W;
         redirect_state := substring_from 7 rnd;
         show_dialog := true |},
   {| session :=
        Some {| accessToken := accessToken s;
                refreshToken := refreshToken s;
                expiresAt := expiresAt s;
                state := Some (substring_from 7 rnd) |};
      calls := calls st;
      clock := clock st |}).
Proof.
  intros Hs. destruct st as [sess log now]. cbn in Hs. subst sess.
  reflexivity.
Qed.


(** X10.  The issued state is what is left of the random string after its
    first seven characters.  When the string has more than seven, a callback
    whose state is not the issued one is answered 400 and changes nothing.
    When it has seven or fewer, the issued state is empty and counts as
    absent: every callback with a code and no error goes on to the exchange,
    whatever state it returns. *)
Theorem short_random_string_disables_check
    (rnd : string) (st : St) (s : Session) :
  session st = Some s ->
  let st1 := snd (login W rnd st) in
  ((7 < String.length rnd)%nat ->
   forall q,
     query_state q <> Some (substring_from 7 rnd) ->
     exists page,
       callback W q st1 = (Ok {| status := 400; reply_body := Html page |}, st1))
  /\
  ((String.length rnd <= 7)%nat ->
   forall q code,
     or_null (query_error q) = None ->
     or_null (query_code q) = Some code ->
     callback W q st1 = exchange_code W code st1).
Proof.
  intros Hs st1. unfold st1. rewrite (login_run rnd st Hs). cbn [snd].
  split.
  - intros Hlong q Hdiff.
    apply substring_from_nonempty in Hlong.
    match goal with
    | |- context [callback W q ?x] =>
        destruct (@callback_cases W q x _ eq_refl)
          as [Hrej|(code & _ & _ & [Hf|[_ Heq]] & _)]
    end.
    + exact Hrej.
    + cbn in Hf. congruence.
    + cbn in Heq. contradiction.
  - intros Hshort q code He Hc.
    eapply callback_admitted; eauto; [reflexivity|].
    left. cbn.
    destruct (nonempty (substring_from 7 rnd)) eqn:E; [|reflexivity].
    apply substring_from_nonempty in E. lia.
Qed.

(** X11.  After [/logout] the request has no session, nothing was sent
    upstream, and token resolution from there is the service-token step
    alone: it can only end in demo mode or in an exception. *)
Theorem logout_leaves_only_demo (st : St) (s : Session) :
  session st = Some s ->
  fst (logout st) = Ok true /\
  session (snd (logout st)) = None /\
  calls (snd (logout st)) = calls st /\
  getAccessToken W (snd (logout st)) = service_token W (snd (logout st)) /\
  (forall r st',
      getAccessToken W (snd (logout st)) = (Ok r, st') -> token_mode r = Demo).
Proof.
  intros Hs.
  assert (Hrun : logout st =
                 (Ok true, {| session := None; calls := calls st;
                              clock := clock st |})).
  { destruct st as [sess log now]. cbn in Hs. subst sess. reflexivity. }
  rewrite Hrun. cbn [fst snd].
  assert (Hres : forall x, session x = None ->
                           getAccessToken W x = service_token W x).
  { intros x Hx. rewrite getAccessToken_run, Hx. reflexivity. }
  split; [reflexivity|]. split; [reflexivity|]. split; [reflexivity|]. split.
  - apply Hres. reflexivity.
  - intros r st'. rewrite Hres by reflexivity.
    intros E. apply service_token_mode in E. tauto.
Qed.

Lemma auth_status_run (st : St) :
  auth_status W st =
  (Ok {| authenticated :=
           match valid_access_token (session st) (Z.of_N (clock st)) with
           | Some _ => true
           | None => false
           end;
         status_mode :=
           match valid_access_token (session st) (Z.of_N (clock st)) with
           | Some _ => Some User
           | None =>
               if truthy_str (SERVICE_REFRESH_TOKEN W) then Some Demo else None
           end;
         status_expiresAt :=
           match session st with Some s => expiresAt s | None => None end;
         demoAvailable := truthy_str (SERVICE_REFRESH_TOKEN W) |},
   st).
Proof.
  unfold auth_status, bind, get_session, date_now, ret, valid_access_token.
  destruct (session st) as [s|]; [|reflexivity].
  unfold truthy_str, truthy_num.
  destruct (accessToken s) as [tok|], (expiresAt s) as [exp|];
    try reflexivity.
  - destruct (nonempty tok && negb (exp =? 0) && (Z.of_N (clock st) <? exp));
      reflexivity.
  - now rewrite andb_false_r.
Qed.

(** X12.  The status route sends nothing upstream and changes nothing, and
    its [authenticated] flag says exactly when token resolution would be
    answered from the session: it is true if and only if resolution returns
    a token and leaves the state as it is, and then the reported mode is
    user.  When it reports no demo mode available, resolution can only end in
    user mode or in an exception. *)
Theorem auth_status_agrees_with_resolution (st : St) :
  exists a,
    auth_status W st = (Ok a, st) /\
    (authenticated a = true <-> exists r, getAccessToken W st = (Ok r, st)) /\
    (authenticated a = true -> status_mode a = Some User) /\
    (demoAvailable a = false ->
     forall r st', getAccessToken W st = (Ok r, st') -> token_mode r = User).
Proof.
  eexists. split; [apply auth_status_run|].
  cbn [authenticated status_mode demoAvailable].
  assert (Hsvc : forall st1 r, st1 = st \/ (exists c, st1 = awaited W c st) ->
                               service_token W st1 <> (Ok r, st)).
  { intros st1 r Hst1 E. apply service_token_mode in E.
    destruct E as (_ & srt & _ & E).
    destruct Hst1 as [->|(c & ->)].
    - symmetry in E. exact (awaited_neq W _ _ E).
    - apply (f_equal (fun x => List.length (calls x))) in E.
      rewrite !awaited_calls, !length_app in E. simpl in E. lia. }
  split; [|split].
  - rewrite getAccessToken_run.
    destruct (valid_access_token _ _) as [tok|]; split; eauto;
      try discriminate.
    intros (r & E). exfalso.
    destruct (session_refresh_token (session st)) as [rt|].
    + rewrite refresh_user_token_run in E. cbv zeta in E.
      destruct (answer W st _) as [e|[|] data].
      * apply Hsvc in E; eauto.
      * injection E as _ E. apply (f_equal calls) in E. cbn in E.
        exact (app_one_neq _ _ E).
      * apply Hsvc in E; eauto.
    + apply Hsvc in E; auto.
  - destruct (valid_access_token _ _); [reflexivity|discriminate].
  - intros Hno r st'. rewrite getAccessToken_run.
    assert (Hnone : forall x, service_token W x <> (Ok r, st')).
    { intros x E. apply service_token_mode in E.
      destruct E as (_ & srt & Hsrt & _).
      unfold or_null in Hsrt. rewrite Hno in Hsrt. discriminate. }
    destruct (valid_access_token _ _) as [tok|]; [now intros [= <- _]|].
    destruct (session_refresh_token (session st)) as [rt|].
    + rewrite refresh_user_token_run. cbv zeta.
      destruct (answer W st _) as [e|[|] data]; intros E;
        try (now apply Hnone in E).
      now injection E as <- _.
    + intros E. now apply Hnone in E.
Qed.

(** X13.  The status route can report demo mode for a session that
    resolution then serves in user mode: with no valid access token, a
    refresh token the upstream accepts and a service token configured, the
    route says [mode: 'demo'] and [authenticated: false], and token
    resolution from the same state returns a user token. *)
Theorem status_reports_demo_before_refresh (st : St) :
  valid_access_token (session st) (Z.of_N (clock st)) = None ->
  refresh_usable W st = true ->
  truthy_str (SERVICE_REFRESH_TOKEN W) = true ->
  (exists a,
      fst (auth_status W st) = Ok a /\
      authenticated a = false /\ status_mode a = Some Demo) /\
  (exists tok, fst (getAccessToken W st) =
               Ok {| token := tok; token_mode := User |}).
Proof.
  intros Hv Hu Hsvc. split.
  - rewrite auth_status_run, Hv, Hsvc. eexists. cbn. eauto.
  - rewrite getAccessToken_run, Hv. unfold refresh_usable in Hu.
    destruct (session_refresh_token (session st)) as [rt|]; [|discriminate].
    rewrite refresh_user_token_run. cbv zeta.
    destruct (answer W st _) as [e|[|] data]; try discriminate.
    eexists. reflexivity.
Qed.

End SessionRoutes.

(** ** Composing returns and call counts *)

Section Composition.

Variable W : World.

Lemma yields_ret {A : Type} (Q : A -> Prop) (a : A) : Q a -> yields Q (ret a).
Proof. intros H st x st' [= <- _]. exact H. Qed.

Lemma yields_throw {A : Type} (Q : A -> Prop) (e : js_error) :
  yields Q (@throw A e).
Proof. intros st x st' E. discriminate. Qed.

Lemma yields_bind {A B : Type} (Q : B -> Prop) (m : M A) (k : A -> M B) :
  (forall a, yields Q (k a)) -> yields Q (bind m k).
Proof.
  intros Hk st b st'. unfold bind.
  destruct (m st) as [[a|e] st1]; [apply Hk | discriminate].
Qed.

Lemma yields_try_catch {A : Type} (Q : A -> Prop) (m : M A)
    (h : js_error -> M A) :
  yields Q m -> (forall e, yields Q (h e)) -> yields Q (try_catch m h).
Proof.
  intros Hm Hh st a st'. unfold try_catch.
  destruct (m st) as [[x|e] st1] eqn:E.
  - intros [= <- <-]. eapply Hm; eauto.
  - apply Hh.
Qed.

Lemma try_catch_always_returns {A : Type} (m : M A) (h : js_error -> M A) :
  (forall e, always_returns (h e)) -> always_returns (try_catch m h).
Proof.
  intros Hh st. unfold try_catch.
  destruct (m st) as [[a|e] st1]; [eexists; reflexivity | apply Hh].
Qed.

Lemma logs_ret {A : Type} (a : A) : logs_at_most 0 (ret a).
Proof. intros st. exists []. simpl. rewrite app_nil_r. auto. Qed.

Lemma logs_throw {A : Type} (e : js_error) : logs_at_most 0 (@throw A e).
Proof. intros st. exists []. simpl. rewrite app_nil_r. auto. Qed.

Lemma logs_fetch (c : call) : logs_at_most 1 (fetch W c).
Proof.
  intros st. exists [c]. rewrite fetch_state. auto.
Qed.

Lemma logs_more {A : Type} (n k : nat) (m : M A) :
  (n <= k)%nat -> logs_at_most n m -> logs_at_most k m.
Proof.
  intros Hle Hm st. destruct (Hm st) as (l & E & L). exists l. split; [exact E|lia].
Qed.

Lemma logs_bind {A B : Type} (n k : nat) (m : M A) (f : A -> M B) :
  logs_at_most n m -> (forall a, logs_at_most k (f a)) ->
  logs_at_most (n + k) (bind m f).
Proof.
  intros Hm Hf st. unfold bind.
  destruct (Hm st) as (l1 & E1 & L1).
  destruct (m st) as [[a|e] st1]; simpl in E1.
  - destruct (Hf a st1) as (l2 & E2 & L2).
    exists (l1 ++ l2)%list. rewrite E2, E1, app_assoc, length_app.
    split; [reflexivity|lia].
  - exists l1. split; [exact E1|lia].
Qed.

Lemma logs_try_catch {A : Type} (n : nat) (m : M A) (h : js_error -> M A) :
  logs_at_most n m -> (forall e, logs_at_most 0 (h e)) ->
  logs_at_most n (try_catch m h).
Proof.
  intros Hm Hh st. unfold try_catch.
  destruct (Hm st) as (l1 & E1 & L1).
  destruct (m st) as [[a|e] st1]; simpl in E1.
  - exists l1. auto.
  - destruct (Hh e st1) as (l2 & E2 & L2).
    destruct l2; [|simpl in L2; lia].
    exists l1. rewrite E2, app_nil_r. auto.
Qed.

(** The log of one token resolution. *)
Lemma getAccessToken_log (st : St) :
  exists l,
    calls (snd (getAccessToken W st)) = (calls st ++ l)%list /\
    (List.length l <= 2)%nat /\
    Forall (fun c => exists t, c = token_call W (RefreshGrant t)) l.
Proof.
  assert (Hsvc : forall st1,
             exists l,
               calls (snd (service_token W st1)) = (calls st1 ++ l)%list /\
               (List.length l <= 1)%nat /\
               Forall (fun c => exists t, c = token_call W (RefreshGrant t)) l).
  { intros st1. rewrite service_token_run.
    destruct (or_null (SERVICE_REFRESH_TOKEN W)) as [srt|].
    - exists [token_call W (RefreshGrant srt)]. split.
      + cbv zeta. destruct (answer W st1 _) as [e|[|] data]; reflexivity.
      + split; [simpl; lia|]. repeat constructor. eauto.
    - exists []. simpl. rewrite app_nil_r. auto. }
  rewrite getAccessToken_run.
  destruct (valid_access_token _ _).
  { exists []. simpl. rewrite app_nil_r. auto. }
  destruct (session_refresh_token (session st)) as [rt|].
  - rewrite refresh_user_token_run. cbv zeta.
    set (c := token_call W (RefreshGrant rt)).
    assert (Hfall : exists l,
               calls (snd (service_token W (awaited W c st))) =
               (calls st ++ l)%list /\ (List.length l <= 2)%nat /\
               Forall (fun c => exists t, c = token_call W (RefreshGrant t)) l).
    { destruct (Hsvc (awaited W c st)) as (l & E & L & F).
      exists (c :: l). rewrite E, awaited_calls, <- app_assoc.
      split; [reflexivity|]. split; [simpl; lia|].
      constructor; [unfold c; eauto | exact F]. }
    destruct (answer W st c) as [e|[|] data]; try exact Hfall.
    exists [c]. split; [reflexivity|]. split; [simpl; lia|].
    repeat constructor. unfold c. eauto.
  - destruct (Hsvc st) as (l & E & L & F). exists l. repeat split; auto; lia.
Qed.

Lemma getAccessToken_logs : logs_at_most 2 (getAccessToken W).
Proof.
  intros st. destruct (getAccessToken_log st) as (l & E & L & _). eauto.
Qed.

Lemma collect_tracks_logs (b : GenerateBody) (tok : string)
    (todo : list string) :
  forall pool, logs_at_most (List.length todo) (collect_tracks W b tok todo pool).
Proof.
  induction todo as [|a rest IH]; intros pool; cbn [collect_tracks List.length].
  - apply logs_ret.
  - change (S (List.length rest)) with (1 + List.length rest)%nat.
    apply logs_bind; [apply logs_fetch|].
    intros [ok data]. destruct ok; cbn [negb]; [destruct (tracks_items data)|];
      apply IH.
Qed.

Lemma create_playlist_logs (b : GenerateBody) (tr : TokenResult)
    (uris : list string) :
  logs_at_most 3 (create_playlist W b tr uris).
Proof.
  unfold create_playlist.
  change 3%nat with (1 + (1 + (1 + 0)))%nat.
  apply logs_bind; [apply logs_fetch|].
  intros [meOk meData]. destruct meOk; cbn [negb];
    [|eapply logs_more; [|apply logs_throw]; lia].
  apply logs_bind; [apply logs_fetch|].
  intros [createOk playlistData]. destruct createOk; cbn [negb];
    [|eapply logs_more; [|apply logs_throw]; lia].
  apply logs_bind; [apply logs_fetch|].
  intros _. destruct (external_urls playlistData);
    [apply logs_ret | apply logs_throw].
Qed.

Lemma create_playlist_yields_200 (b : GenerateBody) (tr : TokenResult)
    (uris : list string) :
  yields (fun r => status r = 200%nat) (create_playlist W b tr uris).
Proof.
  unfold create_playlist.
  apply yields_bind. intros [meOk meData].
  destruct meOk; cbn [negb]; [|apply yields_throw].
  apply yields_bind. intros [createOk playlistData].
  destruct createOk; cbn [negb]; [|apply yields_throw].
  apply yields_bind. intros _.
  destruct (external_urls playlistData);
    [apply yields_ret; reflexivity | apply yields_throw].
Qed.

Lemma take_count_range (b : GenerateBody) :
  bad_song_count b = false -> 1 <= take_count b <= 100.
Proof.
  unfold bad_song_count, take_count.
  destruct (songCount b) as [n|]; [|lia].
  destruct (n =? 0) eqn:E; cbn [negb andb]; [lia|].
  rewrite orb_false_iff, !Z.ltb_ge. lia.
Qed.

Lemma slice0_length_le {A : Type} (n : Z) (l : list A) :
  0 <= n -> (List.length (slice0 n l) <= Z.to_nat n)%nat.
Proof.
  intros Hn. unfold slice0.
  destruct (0 <=? n) eqn:E; [|apply Z.leb_gt in E; lia].
  rewrite length_firstn. lia.
Qed.

End Composition.

(** ** The API routes *)

Section ApiRoutes.

Variable W : World.

(** X2.  One token resolution sends at most two requests upstream, and they
    are refresh grants at the token endpoint. *)
Theorem token_resolution_call_budget (st : St) :
  exists l,
    calls (snd (getAccessToken W st)) = (calls st ++ l)%list /\
    (List.length l <= 2)%nat /\
    Forall (fun c => exists t, c = token_call W (RefreshGrant t)) l.
Proof. exact (getAccessToken_log W st). Qed.

(** X14.  The two API routes never let an exception out: whatever the
    request, the session and the upstream, [/api/search-artists] replies
    with 200, 400 or 500 and [/api/generate] with 200, 400, 404 or 500. *)
Theorem api_routes_always_reply (q : Query) (b : GenerateBody) (st : St) :
  (exists r, fst (search_artists W q st) = Ok r /\
             (status r = 200 \/ status r = 400 \/ status r = 500)%nat) /\
  (exists r, fst (generate W b st) = Ok r /\
             (status r = 200 \/ status r = 400 \/ status r = 404
              \/ status r = 500)%nat).
Proof.
  split.
  - assert (Hret : always_returns (search_artists W q)).
    { apply try_catch_always_returns. intros e x. eexists; reflexivity. }
    destruct (Hret st) as (r & Hr). exists r. split; [exact Hr|].
    assert (Hy : yields (fun r => status r = 200 \/ status r = 400
                                  \/ status r = 500)%nat
                        (search_artists W q)).
    { apply yields_try_catch; [|intros; apply yields_ret; auto].
      apply yields_bind. intros tr.
      destruct (or_null (query_q q)); [|apply yields_ret; auto].
      apply yields_bind. intros [ok data].
      destruct ok; cbn [negb]; [apply yields_ret; auto | apply yields_throw]. }
    destruct (search_artists W q st) as [res st'] eqn:E. cbn in Hr. subst res.
    exact (Hy _ _ _ E).
  - unfold generate.
    destruct (invalid_request b); [eexists; split; [reflexivity|cbn; auto]|].
    destruct (bad_song_count b); [eexists; split; [reflexivity|cbn; auto]|].
    match goal with
    | |- context [try_catch ?m ?h st] =>
        assert (Hret : always_returns (try_catch m h));
        [ apply try_catch_always_returns; intros e x; eexists; reflexivity |];
        assert (Hy : yields (fun r => status r = 200 \/ status r = 400
                                      \/ status r = 404 \/ status r = 500)%nat
                            (try_catch m h))
    end.
    { apply yields_try_catch; [|intros; apply yields_ret; cbn; auto].
      apply yields_bind. intros tr. apply yields_bind. intros pool. cbv zeta.
      destruct (List.length (selectedUris W b pool) =? 0)%nat;
        [apply yields_ret; cbn; auto|].
      intros x r x' E. left. exact (create_playlist_yields_200 W b tr _ _ _ _ E). }
    destruct (Hret st) as (r & Hr). exists r. split; [exact Hr|].
    match goal with
    | Hr : fst (?run) = Ok r |- _ => destruct run as [res st'] eqn:E
    end.
    cbn in Hr. subst res. exact (Hy _ _ _ E).
Qed.

(** X15.  Every track-insertion request that [/api/generate] sends carries at
    least one and at most a hundred URIs, whatever the request, the upstream
    and the randomised sort. *)
Theorem insertion_batch_is_bounded (b : GenerateBody) (st : St) :
  exists l,
    calls (snd (generate W b st)) = (calls st ++ l)%list /\
    Forall (fun c => forall playlist us tok,
                c = AddTracksCall playlist us tok ->
                (1 <= List.length us <= 100)%nat) l.
Proof.
  revert st.
  change (emits (fun c => forall playlist us tok,
                    c = AddTracksCall playlist us tok ->
                    (1 <= List.length us <= 100)%nat)
                (generate W b)).
  unfold generate.
  destruct (invalid_request b); [apply emits_reply|].
  destruct (bad_song_count b) eqn:Hcount; [apply emits_reply|].
  apply emits_try_catch; [|intros; apply emits_reply].
  apply emits_bind.
  { eapply emits_weaken; [|apply getAccessToken_emits].
    intros c [g ->]. discriminate. }
  intros tr. apply emits_bind.
  { eapply emits_weaken; [|apply collect_tracks_emits].
    intros c [a ->]. discriminate. }
  intros pool. cbv zeta.
  destruct (List.length (selectedUris W b pool) =? 0)%nat eqn:E;
    [apply emits_reply|].
  eapply emits_weaken; [|apply create_playlist_emits].
  intros c [->|[(u & ->)|(p & ->)]] playlist us tok; try discriminate.
  intros [= _ <- _]. apply Nat.eqb_neq in E. split; [lia|].
  unfold selectedUris. rewrite length_map.
  pose proof (take_count_range b Hcount) as R.
  pose proof (slice0_length_le (take_count b) (random_sort W pool)) as L.
  lia.
Qed.

(** X16.  One run of [/api/generate] sends at most five requests upstream
    besides one search per artist of the request. *)
Theorem generation_call_budget (b : GenerateBody) (st : St) :
  exists l,
    calls (snd (generate W b st)) = (calls st ++ l)%list /\
    (List.length l <= List.length (array_items (artists b)) + 5)%nat.
Proof.
  revert st.
  change (logs_at_most (List.length (array_items (artists b)) + 5)
                       (generate W b)).
  unfold generate.
  destruct (invalid_request b); [eapply logs_more; [|apply logs_ret]; lia|].
  destruct (bad_song_count b); [eapply logs_more; [|apply logs_ret]; lia|].
  apply logs_try_catch; [|intros; apply logs_ret].
  eapply logs_more;
    [|apply (@logs_bind _ _ 2 (List.length (array_items (artists b)) + 3));
      [apply getAccessToken_logs|]].
  { lia. }
  intros tr. apply logs_bind; [apply collect_tracks_logs|].
  intros pool. cbv zeta.
  destruct (List.length (selectedUris W b pool) =? 0)%nat;
    [eapply logs_more; [|apply logs_ret]; lia | apply create_playlist_logs].
Qed.

(** X17.  No tracks, no playlist: when the token is resolved, every search
    comes back with a response and none of them contributes a track, the
    reply is 404 and the searches are the last requests sent; the profile is
    not fetched and no playlist is created. *)
Theorem no_tracks_no_playlist
    (b : GenerateBody) (st : St) (tr : TokenResult) (st1 : St) :
  sort_permutes W ->
  invalid_request b = false ->
  bad_song_count b = false ->
  getAccessToken W st = (Ok tr, st1) ->
  searches_respond W b (token tr) (List.length (calls st1))
                   (array_items (artists b)) ->
  gathered W b (token tr) (List.length (calls st1)) (array_items (artists b))
    = [] ->
  fst (generate W b st) =
    Ok {| status := 404;
          reply_body := ErrorJson "No songs found for these artists/years." |} /\
  calls (snd (generate W b st)) =
    (calls st1 ++ map (track_search b (token tr)) (array_items (artists b)))%list.
Proof.
  intros Hperm Hvalid Hcount Htok Hresp Hnone.
  assert (Hempty : selectedUris W b [] = []).
  { unfold selectedUris.
    rewrite (Permutation_nil (Permutation_sym (Hperm []))).
    unfold slice0. destruct (0 <=? take_count b); now rewrite firstn_nil. }
  pose proof (collect_tracks_run W b (token tr) (array_items (artists b))
                [] st1 Hresp) as Hpool.
  rewrite Hnone in Hpool. cbn [app] in Hpool.
  assert (Hrun : exists st2,
             generate W b st =
             (Ok {| status := 404;
                    reply_body :=
                      ErrorJson "No songs found for these artists/years." |},
              st2) /\
             calls st2 =
             (calls st1 ++ map (track_search b (token tr))
                               (array_items (artists b)))%list).
  { eexists. split.
    - rewrite (generate_valid_run W b st Hvalid Hcount).
      unfold try_catch, bind at 1. rewrite Htok.
      unfold bind at 1. rewrite Hpool, Hempty. reflexivity.
    - reflexivity. }
  destruct Hrun as (st2 & -> & Hcalls). auto.
Qed.

(** X18.  The selection invents nothing: every URI it holds is the URI of a
    track of the pool. *)
Theorem selection_comes_from_pool (b : GenerateBody) (pool : list Track) :
  sort_permutes W ->
  incl (selectedUris W b pool) (map uri pool).
Proof.
  intros Hperm u Hu. unfold selectedUris in Hu.
  destruct (slice0_is_prefix (take_count b) (random_sort W pool)) as [k Hk].
  rewrite Hk, <- firstn_map in Hu.
  apply (Permutation_in u (Permutation_map uri (Hperm pool))).
  rewrite <- (firstn_skipn k (map uri (random_sort W pool))).
  apply in_or_app. now left.
Qed.

(** X19.  One run, one token: once token resolution has returned, every
    request that [/api/generate] sends after it (the searches, the profile
    fetch, the creation and the insertion) carries the token that resolution
    returned as its bearer. *)
Theorem generation_uses_the_resolved_token
    (b : GenerateBody) (st : St) (tr : TokenResult) (st1 : St) :
  invalid_request b = false ->
  bad_song_count b = false ->
  getAccessToken W st = (Ok tr, st1) ->
  exists l,
    calls (snd (generate W b st)) = (calls st1 ++ l)%list /\
    Forall (fun c => bearer_of c = Some (token tr)) l.
Proof.
  intros Hvalid Hcount Htok.
  rewrite (generate_valid_run W b st Hvalid Hcount).
  assert (Hrest :
            emits (fun c => bearer_of c = Some (token tr))
              (try_catch
                 (allTracks <- collect_tracks W b (token tr)
                                 (array_items (artists b)) [] ;;
                  if (List.length (selectedUris W b allTracks) =? 0)%nat then
                    reply 404 (ErrorJson "No songs found for these artists/years.")
                  else create_playlist W b tr (selectedUris W b allTracks))
                 generate_failed)).
  { apply emits_try_catch; [|intros; apply emits_reply].
    apply emits_bind.
    { eapply emits_weaken; [|apply collect_tracks_emits].
      intros c [a ->]. reflexivity. }
    intros pool.
    destruct (List.length (selectedUris W b pool) =? 0)%nat;
      [apply emits_reply|].
    eapply emits_weaken; [|apply create_playlist_emits].
    intros c [->|[(u & ->)|(p & ->)]]; reflexivity. }
  destruct (Hrest st1) as (l & E & F). exists l. split; [|exact F].
  rewrite <- E. unfold try_catch, bind at 1 3. rewrite Htok. reflexivity.
Qed.

End ApiRoutes.

(** ** The other servers *)

Section Variants.

Variable W : World.

Lemma requireAuth_run {A : Type} (next : M A) (st : St) [s : Session] :
  session st = Some s ->
  requireAuth next st =
  if truthy_str (accessToken s) then
    match next st with
    | (Ok a, st') => (Ok (Passed a), st')
    | (Throw e, st') => (Throw e, st')
    end
  else (Ok NotAuthenticated, st).
Proof.
  intros Hs. destruct st as [sess log now]. cbn in Hs. subst sess.
  unfold requireAuth, bind, get_session, ret. cbn [session].
  destruct (truthy_str (accessToken s)); cbn [negb]; [|reflexivity].
  destruct (next _) as [[a|e] st']; reflexivity.
Qed.

(** X20.  In the login-only server the guard looks at the presence of an
    access token and at nothing else.  A session without one gets the 401
    from the state it came in, before the query is looked at; a session
    whose token has run out and that has no refresh token passes the guard,
    and the route replies 500 with nothing sent upstream. *)
Theorem guard_checks_presence_only (q : Query) (st : St) (s : Session) :
  session st = Some s ->
  (truthy_str (accessToken s) = false ->
   search_artists_guarded W q st = (Ok NotAuthenticated, st)) /\
  (truthy_str (accessToken s) = true ->
   valid_access_token (Some s) (Z.of_N (clock st)) = None ->
   or_null (refreshToken s) = None ->
   search_artists_guarded W q st =
   (Ok (Passed {| plain_status := 500;
                  plain_reply_body := PlainError "No refresh token available" |}),
    st)).
Proof.
  intros Hs. unfold search_artists_guarded.
  rewrite (requireAuth_run (search_artists_user W q) st Hs). split.
  - intros Hno. rewrite Hno. reflexivity.
  - intros Hyes Hv Hr. rewrite Hyes.
    unfold search_artists_user, try_catch, getValidAccessToken, bind at 1 2 3,
      get_session, date_now.
    rewrite Hs, Hv, Hr. reflexivity.
Qed.

(** X21.  The dual-mode token provider is the login-only one with its
    failures replaced by the service-token step: where [getValidAccessToken]
    returns a token, [getAccessToken] returns the same token in user mode and
    leaves the same state; where it throws, [getAccessToken] continues as the
    service-token step from the state the failure left. *)
Theorem dual_mode_extends_login_only (st : St) :
  getAccessToken W st =
  match getValidAccessToken W st with
  | (Ok tok, st') => (Ok {| token := tok; token_mode := User |}, st')
  | (Throw _, st') => service_token W st'
  end.
Proof.
  rewrite getAccessToken_run.
  unfold getValidAccessToken, bind at 1 2, get_session, date_now.
  destruct (session st) as [s|] eqn:Hs; [|reflexivity].
  destruct (valid_access_token (Some s) (Z.of_N (clock st))); [reflexivity|].
  cbn [session_refresh_token].
  destruct (or_null (refreshToken s)) as [rt|]; [|reflexivity].
  rewrite refresh_user_token_run. cbv zeta.
  unfold bind, fetch.
  destruct (answer W st _) as [e|[|] data]; reflexivity.
Qed.

Lemma exchange_code_strict_run (code : string) (st : St) :
  let c := token_call W (CodeGrant code (REDIRECT_URI W)) in
  calls (snd (exchange_code_strict W code st)) = (calls st ++ [c])%list /\
  calls (snd (exchange_code W code st)) = (calls st ++ [c])%list /\
  snd (exchange_code_strict W code st) <> st.
Proof.
  cbv zeta. rewrite exchange_code_run. cbv zeta.
  unfold exchange_code_strict, try_catch, bind, fetch.
  destruct (answer W st _) as [e|[|] data]; cbn; repeat split; trivial;
    intros H; apply (f_equal calls) in H; cbn in H;
    exact (app_one_neq _ _ H).
Qed.

(** The replies of the two exchanges, side by side: the same status, the
    same page on failure, and on success the page of each server. *)
Lemma exchange_replies_side_by_side (code : string) (st : St) :
  exists r r',
    fst (exchange_code W code st) = Ok r /\
    fst (exchange_code_strict W code st) = Ok r' /\
    status r = status r' /\
    (status r <> 200%nat -> r = r') /\
    (status r = 200%nat ->
     reply_body r = AuthSuccessPage /\
     reply_body r' = Html strict_success_page).
Proof.
  rewrite exchange_code_run. cbv zeta.
  unfold exchange_code_strict, try_catch, bind, fetch.
  destruct (answer W st _) as [e|[|] data]; cbn;
    eexists; eexists; repeat split; try reflexivity;
    try discriminate; intros H; now contradiction H.
Qed.

(** The two ways the strict callback can go when the request has a
    session. *)
Lemma callback_strict_cases (q : Query) (st : St) [s : Session] :
  session st = Some s ->
  (exists page,
      callback_strict W q st =
      (Ok {| status := 400; reply_body := Html page |}, st)) \/
  (exists code,
      or_null (query_code q) = Some code /\
      truthy_str (state s) = true /\
      query_state q = state s /\
      callback_strict W q st = exchange_code_strict W code st).
Proof.
  intros Hs. unfold callback_strict.
  destruct (or_null (query_code q)) as [code|]; [|left; eexists; reflexivity].
  unfold bind, get_session. rewrite Hs.
  destruct (strict_eq (or_null (query_state q)) (state s)) eqn:E; cbn [negb].
  - right. exists code. apply strict_eq_true in E.
    destruct E as (x & Hx & Hst). apply or_null_some in Hx.
    destruct Hx as [Hx Hne]. rewrite Hst. cbn. repeat split; congruence.
  - left. eexists; reflexivity.
Qed.


(** X23.  Whatever the strict callback lets through, the lenient one lets
    through as well: for a request without an [error] parameter, when the
    strict callback goes upstream, the lenient callback sends the same
    exchange and replies with the same status.  On a failed exchange the two
    replies are the same page; on success each server sends its own success
    page. *)
Theorem lenient_callback_admits_what_strict_admits
    (q : Query) (st : St) (s : Session) :
  session st = Some s ->
  or_null (query_error q) = None ->
  snd (callback_strict W q st) <> st ->
  calls (snd (callback W q st)) = calls (snd (callback_strict W q st)) /\
  exists r r',
    fst (callback W q st) = Ok r /\
    fst (callback_strict W q st) = Ok r' /\
    status r = status r' /\
    (status r <> 200%nat -> r = r') /\
    (status r = 200%nat ->
     reply_body r = AuthSuccessPage /\
     reply_body r' = Html strict_success_page).
Proof.
  intros Hs He Hact.
  destruct (callback_strict_cases q st Hs)
    as [(page & E)|(code & Hc & Ht & Hq & E)].
  - rewrite E in Hact. now contradiction Hact.
  - rewrite E.
    rewrite (callback_admitted W q st code Hs He Hc (or_intror Hq)).
    destruct (exchange_code_strict_run code st) as (C1 & C2 & _).
    rewrite C1, C2. split; [reflexivity|].
    apply exchange_replies_side_by_side.
Qed.

(** X24.  With nothing to use in the session, the dual-mode provider is the
    service-account provider in demo mode: with a service token configured
    the two make the same exchange and end alike, the token wrapped with
    [mode: 'demo']; with none configured both throw without sending
    anything. *)
Theorem dual_mode_without_session_is_service_only (st : St) :
  valid_access_token (session st) (Z.of_N (clock st)) = None ->
  session_refresh_token (session st) = None ->
  (truthy_str (SERVICE_REFRESH_TOKEN W) = true ->
   getAccessToken W st =
   match getAccessToken_service W st with
   | (Ok tok, st') => (Ok {| token := tok; token_mode := Demo |}, st')
   | (Throw e, st') => (Throw e, st')
   end) /\
  (truthy_str (SERVICE_REFRESH_TOKEN W) = false ->
   exists e e',
     getAccessToken W st = (Throw e, st) /\
     getAccessToken_service W st = (Throw e', st)).
Proof.
  intros Hv Hr. rewrite getAccessToken_run, Hv, Hr, service_token_run.
  unfold getAccessToken_service, or_null, truthy_str.
  destruct (SERVICE_REFRESH_TOKEN W) as [srt|];
    [destruct (nonempty srt)|]; split; try discriminate; intros _.
  - cbv zeta. unfold bind, fetch.
    destruct (answer W st _) as [e|[|] data]; reflexivity.
  - eexists. eexists. split; reflexivity.
  - eexists. eexists. split; reflexivity.
Qed.

End Variants.

(** ** The further properties at work on sample runs *)

Lemma refusing_searches_respond :
  searches_respond refusing_searches (road_trip (Some 5)) "fresh-token" 1
                   ["Queen"; "ABBA"].
Proof.
  intros i artist H.
  destruct i as [|[|i]]; cbn in H;
    try (destruct i; discriminate);
    eexists; eexists; reflexivity.
Qed.

Lemma demo_world_contract (st : St) (code : string) (data : Json) :
  answer demo_world st (token_call demo_world (CodeGrant code (REDIRECT_URI demo_world)))
    = Resp true data ->
  nonempty (access_token data) = true /\ 0 < expires_in data.
Proof.
  unfold answer. cbn [demo_world scripted respond].
  destruct (List.length (calls st)) as [|n]; cbn; intros [= <-]; split; reflexivity.
Qed.

Lemma refreshed_token_witness :
  getAccessToken demo_world (snd (getAccessToken demo_world stale)) =
  (Ok {| token := "fresh-token"; token_mode := User |},
   snd (getAccessToken demo_world stale)).
Proof.
  exact (proj2 (@refreshed_token_is_cached demo_world stale
                  (session_with (Some "old-token") (Some "user-refresh")
                                (Some 500) None)
                  "user-refresh" sample_body
                  eq_refl eq_refl eq_refl eq_refl eq_refl eq_refl eq_refl)).
Defined.

Lemma demo_exchange_witness :
  session (awaited demo_world
             (token_call demo_world (RefreshGrant "service-refresh")) anonymous)
  = session anonymous /\
  exists srt before,
    or_null (SERVICE_REFRESH_TOKEN demo_world) = Some srt /\
    calls (awaited demo_world
             (token_call demo_world (RefreshGrant "service-refresh")) anonymous)
    = (before ++ [token_call demo_world (RefreshGrant srt)])%list /\
    (List.length (calls anonymous) <= List.length before)%nat.
Proof.
  exact (@demo_token_costs_an_exchange demo_world anonymous demo_token
           (awaited demo_world
              (token_call demo_world (RefreshGrant "service-refresh")) anonymous)
           eq_refl eq_refl).
Defined.

Lemma callback_acts_witness :
  or_null (query_error (callback_query "code-1" "k3x9qz")) = None /\
  exists code,
    or_null (query_code (callback_query "code-1" "k3x9qz")) = Some code /\
    (truthy_str (state (session_with None None None (Some "k3x9qz"))) = false \/
     query_state (callback_query "code-1" "k3x9qz") =
     state (session_with None None None (Some "k3x9qz"))) /\
    calls (snd (callback demo_world (callback_query "code-1" "k3x9qz") awaiting)) =
    (calls awaiting ++
     [token_call demo_world (CodeGrant code (REDIRECT_URI demo_world))])%list.
Proof.
  apply (@callback_acts_only_when_admitted demo_world
           (callback_query "code-1" "k3x9qz") awaiting
           (session_with None None None (Some "k3x9qz")) eq_refl).
  intros H. apply (f_equal calls) in H. discriminate H.
Defined.

Lemma callback_tokens_witness :
  exists r,
    fst (callback demo_world (callback_query "code-1" "k3x9qz") awaiting) = Ok r /\
    (status r = 200%nat \/ status r = 400%nat \/ status r = 500%nat) /\
    (status r = 200%nat ->
     exists code data,
       or_null (query_code (callback_query "code-1" "k3x9qz")) = Some code /\
       answer demo_world awaiting
         (token_call demo_world (CodeGrant code (REDIRECT_URI demo_world))) =
         Resp true data /\
       snd (callback demo_world (callback_query "code-1" "k3x9qz") awaiting) =
       {| session :=
            Some {| accessToken := Some (access_token data);
                    refreshToken := refresh_token data;
                    expiresAt :=
                      Some (Z.of_N (clock awaiting
                                    + elapsed demo_world (List.length (calls awaiting))
                                        (token_call demo_world
                                           (CodeGrant code (REDIRECT_URI demo_world))))
                            + expires_in data * 1000);
                    state := None |};
          calls :=
            (calls awaiting ++
             [token_call demo_world (CodeGrant code (REDIRECT_URI demo_world))])%list;
          clock :=
            (clock awaiting
             + elapsed demo_world (List.length (calls awaiting))
                 (token_call demo_world
                    (CodeGrant code (REDIRECT_URI demo_world))))%N |}) /\
    (status r <> 200%nat ->
     session (snd (callback demo_world (callback_query "code-1" "k3x9qz") awaiting)) =
     session awaiting).
Proof.
  exact (@callback_stores_tokens_only_on_success demo_world
           (callback_query "code-1" "k3x9qz") awaiting
           (session_with None None None (Some "k3x9qz")) eq_refl).
Defined.

Lemma login_token_witness :
  exists tok,
    getAccessToken demo_world
      (snd (callback demo_world (callback_query "code-1" "k3x9qz") awaiting)) =
    (Ok {| token := tok; token_mode := User |},
     snd (callback demo_world (callback_query "code-1" "k3x9qz") awaiting)).
Proof.
  exact (@login_token_is_served_from_session demo_world
           (callback_query "code-1" "k3x9qz") awaiting
           (session_with None None None (Some "k3x9qz"))
           {| status := 200; reply_body := AuthSuccessPage |}
           (snd (callback demo_world (callback_query "code-1" "k3x9qz") awaiting))
           eq_refl eq_refl eq_refl (demo_world_contract awaiting)).
Defined.

Lemma state_check_off_witness :
  callback demo_world (callback_query "code-2" "forged")
    (snd (callback demo_world (callback_query "code-1" "k3x9qz") awaiting)) =
  exchange_code demo_world "code-2"
    (snd (callback demo_world (callback_query "code-1" "k3x9qz") awaiting)).
Proof.
  exact (@state_check_is_off_after_success demo_world
           (callback_query "code-1" "k3x9qz") awaiting
           (session_with None None None (Some "k3x9qz"))
           {| status := 200; reply_body := AuthSuccessPage |}
           (snd (callback demo_world (callback_query "code-1" "k3x9qz") awaiting))
           eq_refl eq_refl eq_refl
           (callback_query "code-2" "forged") "code-2" eq_refl eq_refl).
Defined.


Lemma short_random_witness :
  (exists page,
     callback demo_world (callback_query "code-1" "forged")
       (snd (login demo_world "0.4fzyo82mvyr" anonymous)) =
     (Ok {| status := 400; reply_body := Html page |},
      snd (login demo_world "0.4fzyo82mvyr" anonymous))) /\
  callback demo_world (callback_query "code-1" "forged")
    (snd (login demo_world "0.i" anonymous)) =
  exchange_code demo_world "code-1" (snd (login demo_world "0.i" anonymous)).
Proof.
  split.
  - apply (proj1 (@short_random_string_disables_check demo_world
                    "0.4fzyo82mvyr" anonymous empty_session eq_refl)).
    + cbn. lia.
    + discriminate.
  - apply (proj2 (@short_random_string_disables_check demo_world
                    "0.i" anonymous empty_session eq_refl));
      [cbn; lia | reflexivity | reflexivity].
Defined.

Lemma logout_witness :
  fst (logout fresh) = Ok true /\
  session (snd (logout fresh)) = None /\
  calls (snd (logout fresh)) = calls fresh /\
  getAccessToken demo_world (snd (logout fresh)) =
    service_token demo_world (snd (logout fresh)) /\
  (forall r st',
      getAccessToken demo_world (snd (logout fresh)) = (Ok r, st') ->
      token_mode r = Demo).
Proof.
  exact (@logout_leaves_only_demo demo_world fresh
           (session_with (Some "user-token") (Some "user-refresh")
                         (Some 2000) None)
           eq_refl).
Defined.

Lemma status_demo_witness :
  (exists a,
      fst (auth_status demo_world stale) = Ok a /\
      authenticated a = false /\ status_mode a = Some Demo) /\
  (exists tok, fst (getAccessToken demo_world stale) =
               Ok {| token := tok; token_mode := User |}).
Proof.
  exact (@status_reports_demo_before_refresh demo_world stale
           eq_refl eq_refl eq_refl).
Defined.

Lemma no_tracks_witness :
  fst (generate refusing_searches (road_trip (Some 5)) anonymous) =
    Ok {| status := 404;
          reply_body := ErrorJson "No songs found for these artists/years." |} /\
  calls (snd (generate refusing_searches (road_trip (Some 5)) anonymous)) =
    [ token_call refusing_searches (RefreshGrant "service-refresh");
      track_search (road_trip (Some 5)) "fresh-token" "Queen";
      track_search (road_trip (Some 5)) "fresh-token" "ABBA" ].
Proof.
  exact (@no_tracks_no_playlist refusing_searches (road_trip (Some 5))
           anonymous demo_token
           (awaited refusing_searches
              (token_call refusing_searches (RefreshGrant "service-refresh"))
              anonymous)
           (scripted_sort_permutes _ _) eq_refl eq_refl eq_refl
           refusing_searches_respond eq_refl).
Defined.

Lemma selection_from_pool_witness :
  incl (selectedUris demo_world (road_trip (Some 2)) sample_tracks)
       (map uri sample_tracks).
Proof.
  exact (@selection_comes_from_pool demo_world (road_trip (Some 2))
           sample_tracks (scripted_sort_permutes _ _)).
Defined.

Lemma resolved_token_witness :
  exists l,
    calls (snd (generate demo_world (road_trip (Some 5)) anonymous)) =
    ([ token_call demo_world (RefreshGrant "service-refresh") ] ++ l)%list /\
    Forall (fun c => bearer_of c = Some "fresh-token") l.
Proof.
  exact (@generation_uses_the_resolved_token demo_world (road_trip (Some 5))
           anonymous demo_token
           (awaited demo_world
              (token_call demo_world (RefreshGrant "service-refresh")) anonymous)
           eq_refl eq_refl eq_refl).
Defined.

Lemma guard_witness :
  search_artists_guarded demo_world no_query anonymous =
    (Ok NotAuthenticated, anonymous) /\
  search_artists_guarded demo_world no_query expired_no_refresh =
    (Ok (Passed {| plain_status := 500;
                   plain_reply_body := PlainError "No refresh token available" |}),
     expired_no_refresh).
Proof.
  split.
  - exact (proj1 (@guard_checks_presence_only demo_world no_query anonymous
                    empty_session eq_refl) eq_refl).
  - exact (proj2 (@guard_checks_presence_only demo_world no_query
                    expired_no_refresh
                    (session_with (Some "old-token") None (Some 500) None)
                    eq_refl) eq_refl eq_refl eq_refl).
Defined.


Lemma lenient_admits_witness :
  calls (snd (callback demo_world (callback_query "code-1" "k3x9qz") awaiting)) =
    calls (snd (callback_strict demo_world (callback_query "code-1" "k3x9qz")
                  awaiting)) /\
  exists r r',
    fst (callback demo_world (callback_query "code-1" "k3x9qz") awaiting) = Ok r /\
    fst (callback_strict demo_world (callback_query "code-1" "k3x9qz") awaiting)
      = Ok r' /\
    status r = status r' /\
    (status r <> 200%nat -> r = r') /\
    (status r = 200%nat ->
     reply_body r = AuthSuccessPage /\
     reply_body r' = Html strict_success_page).
Proof.
  apply (@lenient_callback_admits_what_strict_admits demo_world
           (callback_query "code-1" "k3x9qz") awaiting
           (session_with None None None (Some "k3x9qz")) eq_refl eq_refl).
  intros H. apply (f_equal calls) in H. discriminate H.
Defined.

Lemma service_only_witness :
  getAccessToken demo_world anonymous =
    match getAccessToken_service demo_world anonymous with
    | (Ok tok, st') => (Ok {| token := tok; token_mode := Demo |}, st')
    | (Throw e, st') => (Throw e, st')
    end /\
  exists e e',
    getAccessToken no_demo_world anonymous = (Throw e, anonymous) /\
    getAccessToken_service no_demo_world anonymous = (Throw e', anonymous).
Proof.
  split.
  - exact (proj1 (@dual_mode_without_session_is_service_only demo_world
                    anonymous eq_refl eq_refl) eq_refl).
  - exact (proj2 (@dual_mode_without_session_is_service_only no_demo_world
                    anonymous eq_refl eq_refl) eq_refl).
Defined.
